(** * Student-mentor matching (match.py): preprocessing helpers, priority
    ordering and the greedy matching loop, with the properties the
    specification states about them. *)

From Stdlib Require Import ZArith String Ascii List Lia.
From Stdlib Require Import Sorting.Permutation Sorting.Sorted.
From stdpp Require Import gmap strings list sorting pretty.

Local Open Scope Z_scope.

(** ** Cell values

    A spreadsheet cell as pandas hands it to the program: a string, a
    number, or a missing value (NaN). *)
Inductive cell : Type :=
| CStr (s : string)
| CInt (n : Z)
| CNaN.

(** ** Text primitives (Python [str] methods used by the program)

    A string is held as the bytes of its UTF-8 form; the methods below
    act on the ASCII range, which is where the literals the program
    searches for live. *)
Module Text.

Definition is_upper (c : ascii) : bool :=
  let n := nat_of_ascii c in (65 <=? n)%nat && (n <=? 90)%nat.

Definition to_lower (c : ascii) : ascii :=
  if is_upper c then ascii_of_nat (nat_of_ascii c + 32) else c.

(** [s.lower()] *)
Fixpoint lower (s : string) : string :=
  match s with
  | EmptyString => EmptyString
  | String c s' => String (to_lower c) (lower s')
  end.

(** [c.isspace()] on the ASCII range: tab .. carriage return, the four
    separators 28 .. 31, and the blank. *)
Definition is_space (c : ascii) : bool :=
  let n := nat_of_ascii c in
  ((9 <=? n)%nat && (n <=? 13)%nat) || ((28 <=? n)%nat && (n <=? 32)%nat).

Fixpoint lstrip (s : string) : string :=
  match s with
  | EmptyString => EmptyString
  | String c s' => if is_space c then lstrip s' else s
  end.

Fixpoint rstrip (s : string) : string :=
  match s with
  | EmptyString => EmptyString
  | String c s' =>
      match rstrip s' with
      | EmptyString => if is_space c then EmptyString else String c EmptyString
      | r => String c r
      end
  end.

(** [s.strip()] *)
Definition strip (s : string) : string := rstrip (lstrip s).

(** [s.startswith(p)] *)
Fixpoint starts_with (p s : string) : bool :=
  match p, s with
  | EmptyString, _ => true
  | String a p', String b s' => bool_decide (a = b) && starts_with p' s'
  | String _ _, EmptyString => false
  end.

(** [sub in s] *)
Fixpoint contains (sub s : string) : bool :=
  starts_with sub s ||
  match s with
  | EmptyString => false
  | String _ s' => contains sub s'
  end.

(** [sub] occurs in [s]: [s] is some prefix, then [sub], then some suffix. *)
Definition occurs_in (sub s : string) : Prop :=
  exists p q : string, s = p +:+ sub +:+ q.

(** The class [\d] of the pattern, on the ASCII range. *)
Definition is_digit (c : ascii) : bool :=
  let n := nat_of_ascii c in (48 <=? n)%nat && (n <=? 57)%nat.

Definition digit_value (c : ascii) : Z := Z.of_nat (nat_of_ascii c) - 48.

Fixpoint drop_non_digits (s : string) : string :=
  match s with
  | EmptyString => EmptyString
  | String c s' => if is_digit c then s else drop_non_digits s'
  end.

Fixpoint take_digits (s : string) : string :=
  match s with
  | EmptyString => EmptyString
  | String c s' => if is_digit c then String c (take_digits s') else EmptyString
  end.

(** [re.search('(\d+)', s)]: the leftmost match, greedy, so the first
    maximal run of digits; [None] when [s] has no digit. *)
Definition search_digits (s : string) : option string :=
  match take_digits (drop_non_digits s) with
  | EmptyString => None
  | run => Some run
  end.

(** The number a run of decimal digits denotes. *)
Fixpoint decimal_acc (acc : Z) (s : string) : Z :=
  match s with
  | EmptyString => acc
  | String c s' => decimal_acc (10 * acc + digit_value c) s'
  end.

Definition decimal (s : string) : Z := decimal_acc 0 s.

Fixpoint all_chars (p : ascii -> bool) (s : string) : bool :=
  match s with
  | EmptyString => true
  | String c s' => p c && all_chars p s'
  end.

Definition non_digit (c : ascii) : bool := negb (is_digit c).

(** [s] is empty or begins with a character that is not a digit. *)
Definition ends_run (s : string) : bool :=
  match s with
  | EmptyString => true
  | String c _ => non_digit c
  end.

(** [s.isascii()]: every character lies in the ASCII range, where the
    classes above are the classes Python and the pattern engine use. *)
Definition is_ascii_char (c : ascii) : bool := (nat_of_ascii c <? 128)%nat.

Definition is_ascii (s : string) : bool := all_chars is_ascii_char s.

End Text.

(** ** Whitespace beyond the ASCII range

    [s.strip()] removes from both ends every character [c] with
    [c.isspace()]. Python has that hold of the ten ASCII characters of
    [Text.is_space] and of U+0085, U+00A0, U+1680, U+2000 to U+200A,
    U+2028, U+2029, U+202F, U+205F and U+3000. *)
Module Utf8.

(** The whitespace characters, each as its UTF-8 bytes. *)
Definition spaces : list (list ascii) :=
  (fun l : list nat => ascii_of_nat <$> l) <$>
  [ [9]; [10]; [11]; [12]; [13]; [28]; [29]; [30]; [31]; [32];
    [194; 133]; [194; 160]; [225; 154; 128];
    [226; 128; 128]; [226; 128; 129]; [226; 128; 130]; [226; 128; 131];
    [226; 128; 132]; [226; 128; 133]; [226; 128; 134]; [226; 128; 135];
    [226; 128; 136]; [226; 128; 137]; [226; 128; 138];
    [226; 128; 168]; [226; 128; 169]; [226; 128; 175];
    [226; 129; 159]; [227; 128; 128] ]%nat.

(** The first of the byte sequences [pats] that [l] begins with. *)
Definition leading (pats : list (list ascii)) (l : list ascii)
    : option (list ascii) :=
  List.find (fun p => bool_decide (p `prefix_of` l)) pats.

(** Drops sequences of [pats] from the front of [l] for as long as one is
    there; each round drops at least one byte, so [length l] rounds are
    enough. *)
Fixpoint drop_leading (pats : list (list ascii)) (rounds : nat)
    (l : list ascii) : list ascii :=
  match rounds with
  | O => l
  | S rounds' =>
      match leading pats l with
      | Some p => drop_leading pats rounds' (drop (length p) l)
      | None => l
      end
  end.

Definition lstrip (l : list ascii) : list ascii :=
  drop_leading spaces (length l) l.

Definition rstrip (l : list ascii) : list ascii :=
  reverse (drop_leading (reverse <$> spaces) (length l) (reverse l)).

(** [s.strip()] *)
Definition strip (s : string) : string :=
  string_of_list_ascii (rstrip (lstrip (list_ascii_of_string s))).

(** [s] is made of whitespace characters only. *)
Definition all_space (s : string) : Prop :=
  exists chars : list (list ascii),
    Forall (fun c => c ∈ spaces) chars
    /\ list_ascii_of_string s = concat chars.

(** A byte that continues a character of more than one byte. *)
Definition is_cont (c : ascii) : bool :=
  let n := nat_of_ascii c in (128 <=? n)%nat && (n <=? 191)%nat.

(** The bytes of one character: a first byte, then continuation bytes. *)
Definition one_char (p : list ascii) : bool :=
  match p with
  | [] => false
  | c :: r => negb (is_cont c) && forallb is_cont r
  end.

(** The no-break space U+00A0 and the em space U+2003. *)
Definition nbsp : string :=
  String (ascii_of_nat 194) (String (ascii_of_nat 160) EmptyString).

Definition em_space : string :=
  String (ascii_of_nat 226)
    (String (ascii_of_nat 128) (String (ascii_of_nat 131) EmptyString)).

End Utf8.

(** ** Preprocessing ([preprocess_data]) *)
Module Preprocess.

(** [map_title_to_gender], lines 19-25. The second test of the source is
    the disjunction of ['ms' in title_clean] with itself. *)
Definition map_title_to_gender (title : cell) : string :=
  match title with
  | CStr t =>
      let title_clean := Text.strip (Text.lower t) in
      if Text.contains "mr" title_clean then "Male"
      else if Text.contains "ms" title_clean || Text.contains "ms" title_clean
           then "Female"
           else "Unknown"
  | _ => "Unknown"
  end.

(** The largest magnitude up to which every integer is a float64, the
    type [pd.to_numeric] falls back on when a column has a NaN. *)
Definition exact_limit : Z := 2 ^ 53.

(** [astype(str)] on one cell of the age column; a number cell holds a
    whole number. [float_column] tells that pandas read the column as
    float64, in which a whole number prints with a trailing ['.0']; in an
    int64 or object column it prints as the integer it is. [None]: the
    cell is outside the model, an integer beyond [exact_limit], which a
    float64 column may round or print with an exponent. *)
Definition astype_str (float_column : bool) (c : cell) : option string :=
  match c with
  | CStr s => Some s
  | CInt n =>
      if bool_decide (Z.abs n <= exact_limit)
      then Some (if float_column then pretty n +:+ ".0" else pretty n)
      else None
  | CNaN => Some "nan"
  end.

(** [.str.extract('(\d+)')] followed by [pd.to_numeric(..., errors='coerce')]
    on the string form of one age cell (lines 76-77). [Some None] is NaN.
    [None]: the string is outside the model, either because it has a
    character beyond the ASCII range (the pattern's [\d] also takes the
    digits of other scripts, which [to_numeric] does not read) or because
    its run denotes a number beyond [exact_limit] (which float64
    rounds). *)
Definition age_of_string (s : string) : option (option Z) :=
  if Text.is_ascii s then
    match Text.search_digits s with
    | None => Some None
    | Some run =>
        if bool_decide (Text.decimal run <= exact_limit)
        then Some (Some (Text.decimal run))
        else None
    end
  else None.

Definition clean_age (float_column : bool) (raw : cell) : option (option Z) :=
  astype_str float_column raw ≫= age_of_string.

End Preprocess.

(** ** Priority ordering ([DataFrame.sort_values])

    [df.sort_values(by='age', ascending=False)] leaves [kind] and
    [na_position] at their defaults, ['quicksort'] and ['last']. pandas
    then sets the rows with a missing key aside, reverses the others,
    lets numpy's [argsort] order them by ascending key, reverses the
    outcome, and appends the rows that were set aside in the order they
    had. *)
Module Frame.

(** numpy's [argsort], seen as a sort of the keys that carries with each
    key the row it came from. Which sort it is depends on [kind]; the
    program takes the library's default. *)
Definition sorter : Type := forall A : Type, list (Z * A) -> list (Z * A).

(** The rows with a known key, each paired with it. *)
Definition keyed {A} (age : A -> option Z) (df : list A) : list (Z * A) :=
  omap (fun r => (fun a => (a, r)) <$> age r) df.

(** The row [r] has age [a] ([None]: its age is missing). *)
Definition has_age {A} (age : A -> option Z) (a : option Z) (r : A) : Prop :=
  age r = a.

#[global] Instance has_age_dec {A} (age : A -> option Z) (a : option Z) (r : A) :
  Decision (has_age age a r) := option_eq_dec (age r) a.

(** The rows with a missing key. *)
Definition nan_rows {A} (age : A -> option Z) (df : list A) : list A :=
  filter (has_age age None) df.

Definition sort_values {A} (argsort : sorter) (age : A -> option Z)
    (df : list A) : list A :=
  (snd <$> reverse (argsort A (reverse (keyed age df)))) ++ nan_rows age df.

(** What every [kind] of [argsort] promises: the outcome is a
    rearrangement of the input with the keys ascending. *)
Definition key_le {A} (x y : Z * A) : Prop := x.1 <= y.1.

#[global] Instance key_le_dec {A} : RelDecision (@key_le A) :=
  fun x y => Z_le_dec x.1 y.1.

Definition sorts_list (f : sorter) {A} (l : list (Z * A)) : Prop :=
  f A l ≡ₚ l /\ StronglySorted key_le (f A l).

Definition sorts (f : sorter) : Prop :=
  forall A (l : list (Z * A)), sorts_list f l.

(** What only the stable kinds promise: entries with the same key keep the
    order they had. *)
Definition stable_list (f : sorter) {A} (l : list (Z * A)) : Prop :=
  forall k : Z, filter (fun x => x.1 = k) (f A l) = filter (fun x => x.1 = k) l.

Definition stable (f : sorter) : Prop :=
  forall A (l : list (Z * A)), stable_list f l.

(** The same two promises for the one call that [sort_values] makes on the
    sheet [df]. *)
Definition sorted_by (f : sorter) {A} (age : A -> option Z) (df : list A)
    : Prop :=
  sorts_list f (reverse (keyed age df)).

Definition ties_kept_by (f : sorter) {A} (age : A -> option Z) (df : list A)
    : Prop :=
  stable_list f (reverse (keyed age df)).

(** Descending order of ages, a missing age below every known one. *)
Definition age_ge (a b : option Z) : Prop :=
  match a, b with
  | _, None => True
  | Some x, Some y => y <= x
  | None, Some _ => False
  end.

Definition by_age_desc {A} (age : A -> option Z) (r1 r2 : A) : Prop :=
  age_ge (age r1) (age r2).

(** Straight insertion, the textbook stable sort (numpy's [kind='stable']
    gives the same outcome as any stable sort does). *)
Fixpoint insert_by_key {A} (x : Z * A) (l : list (Z * A)) : list (Z * A) :=
  match l with
  | [] => [x]
  | y :: l' => if bool_decide (x.1 <= y.1) then x :: y :: l'
               else y :: insert_by_key x l'
  end.

Definition insertion_sort : sorter := fun A l => foldr insert_by_key [] l.

(** The same insertion run over the entries from the first to the last:
    each entry goes in front of the entries already placed that have its
    key. It orders the keys, which is all the default [kind] promises, and
    it does not keep ties in place. *)
Definition front_insertion_sort : sorter :=
  fun A l => foldl (fun placed x => insert_by_key x placed) [] l.

End Frame.

(** ** The matching engine ([match_by_age_and_rules]) and the report *)
Module Engine.

(** A row of the prepared Students sheet: its index label and the columns
    the engine reads. *)
Record student : Type := Student {
  s_index : nat;
  s_age : option Z;
  gender_preference : option string;
  s_campus : string;
  student_phone : cell;
  student_email : cell;
  student_personal_email : cell;
  disability : cell;
  activity_1 : cell
}.

(** A row of the prepared Mentors sheet. *)
Record mentor : Type := Mentor {
  m_index : nat;
  m_name : cell;
  m_age : option Z;
  m_gender : string;
  m_campus : string;
  m_title : cell
}.

(** A row of the result, lines 131-147. *)
Record match_record : Type := MatchRecord {
  Mentor_Name : cell;
  Student_Index : nat;
  Student_Age : option Z;
  Student_Gender_Preference : option string;
  Mentor_Index : nat;
  Mentor_Age : option Z;
  Mentor_Title : cell;
  Match_Reason : string;
  Same_Campus_Match : string;
  Assigned_Campus : string;
  Student_Phone : cell;
  Student_Email : cell;
  Student_Personal_Email : cell;
  Disability : cell;
  Activity_Preference : cell
}.

#[global] Instance cell_eq_dec : EqDecision cell.
Proof. solve_decision. Defined.

#[global] Instance student_eq_dec : EqDecision student.
Proof. solve_decision. Defined.

#[global] Instance mentor_eq_dec : EqDecision mentor.
Proof. solve_decision. Defined.

#[global] Instance match_record_eq_dec : EqDecision match_record.
Proof. solve_decision. Defined.

(** The capacity ledger, [mentor_mentee_count]: a [defaultdict(int)] keyed
    by the mentor's index label. A label the dictionary does not hold
    reads as 0. *)
Definition ledger_get (count : gmap nat Z) (k : nat) : Z :=
  default 0 (count !! k).

(** Reading [mentor_mentee_count[k]] also stores the 0 it returns for a
    label that was not there. *)
Definition ledger_touch (count : gmap nat Z) (k : nat) : gmap nat Z :=
  <[k := ledger_get count k]> count.

(** [mentor_mentee_count[k] += 1] *)
Definition ledger_incr (count : gmap nat Z) (k : nat) : gmap nat Z :=
  <[k := ledger_get count k + 1]> count.

(** Rule 1, lines 108-115: [true] when the mentor is skipped. *)
Definition gender_miss (student_pref : option string) (mentor_gender : string)
    : bool :=
  let is_male_preference_miss :=
    bool_decide (student_pref = Some "Male")
    && negb (bool_decide (mentor_gender = "Male")) in
  let is_female_preference_miss :=
    bool_decide (student_pref = Some "Female")
    && negb (bool_decide (mentor_gender = "Female")) in
  is_male_preference_miss || is_female_preference_miss.

(** The tie-breaker score, lines 122-124. *)
Definition campus_score (s : student) (m : mentor) : Z :=
  if bool_decide (s_campus s = m_campus m)
     && negb (bool_decide (s_campus s = "Unknown"))
  then 1 else 0.

(** What the scan of the mentors carries for one student. *)
Record scan_state : Type := ScanState {
  count : gmap nat Z;
  best_mentor : option mentor;
  highest_score : Z
}.

(** The body of the inner loop, lines 105-128. *)
Definition scan_step (max_mentees_per_mentor : Z) (s : student)
    (st : scan_state) (m : mentor) : scan_state :=
  if gender_miss (gender_preference s) (m_gender m) then st
  else
    let assigned := ledger_get (count st) (m_index m) in
    let count' := ledger_touch (count st) (m_index m) in
    if bool_decide (max_mentees_per_mentor <= assigned)
    then ScanState count' (best_mentor st) (highest_score st)
    else
      let score := campus_score s m in
      if bool_decide (highest_score st < score)
      then ScanState count' (Some m) score
      else ScanState count' (best_mentor st) (highest_score st).

(** The inner loop for one student, lines 102-128. *)
Definition scan (max_mentees_per_mentor : Z) (s : student)
    (mentors_sorted : list mentor) (count : gmap nat Z) : scan_state :=
  foldl (scan_step max_mentees_per_mentor s) (ScanState count None (-1))
        mentors_sorted.

(** The dictionary appended at lines 131-147. *)
Definition make_match (s : student) (m : mentor) (highest_score : Z)
    : match_record :=
  {| Mentor_Name := m_name m;
     Student_Index := s_index s;
     Student_Age := s_age s;
     Student_Gender_Preference := gender_preference s;
     Mentor_Index := m_index m;
     Mentor_Age := m_age m;
     Mentor_Title := m_title m;
     Match_Reason := "Age Priority + Gender Rule + Campus Preference";
     Same_Campus_Match := if bool_decide (0 < highest_score) then "Yes" else "No";
     Assigned_Campus := s_campus s;
     Student_Phone := student_phone s;
     Student_Email := student_email s;
     Student_Personal_Email := student_personal_email s;
     Disability := disability s;
     Activity_Preference := activity_1 s |}.

(** The body of the outer loop, lines 101-148: the ledger and the matches
    so far, before and after one student. *)
Definition assign (max_mentees_per_mentor : Z) (mentors_sorted : list mentor)
    (acc : gmap nat Z * list match_record) (s : student)
    : gmap nat Z * list match_record :=
  let st := scan max_mentees_per_mentor s mentors_sorted acc.1 in
  match best_mentor st with
  | Some m =>
      (ledger_incr (count st) (m_index m),
       acc.2 ++ [make_match s m (highest_score st)])
  | None => (count st, acc.2)
  end.

(** The outer loop, lines 98-148, from a given ledger and list of matches. *)
Definition match_loop (max_mentees_per_mentor : Z)
    (students_sorted : list student) (mentors_sorted : list mentor)
    (acc : gmap nat Z * list match_record) : gmap nat Z * list match_record :=
  foldl (assign max_mentees_per_mentor mentors_sorted) acc students_sorted.

Section WithSort.
Variable argsort : Frame.sorter.

(** The whole run, lines 95-150, with the final ledger beside the result. *)
Definition run (students_df : list student) (mentors_df : list mentor)
    (max_mentees_per_mentor : Z) : gmap nat Z * list match_record :=
  let students_sorted := Frame.sort_values argsort s_age students_df in
  let mentors_sorted := Frame.sort_values argsort m_age mentors_df in
  match_loop max_mentees_per_mentor students_sorted mentors_sorted (∅, []).

Definition match_by_age_and_rules (students_df : list student)
    (mentors_df : list mentor) (max_mentees_per_mentor : Z)
    : list match_record :=
  (run students_df mentors_df max_mentees_per_mentor).2.

End WithSort.

(** The unmatched students, lines 182-186: the prepared sheet filtered by
    the index labels that occur in the result. *)
Definition unmatched_students (students_processed : list student)
    (matches_df : list match_record) : list student :=
  match matches_df with
  | [] => students_processed
  | _ =>
      let matched_student_indices := Student_Index <$> matches_df in
      filter (fun s => s_index s ∉ matched_student_indices) students_processed
  end.

(** Eligibility of a mentor for a student under a ledger: both hard
    filters pass. *)
Definition eligible (max_mentees_per_mentor : Z) (count : gmap nat Z)
    (s : student) (m : mentor) : Prop :=
  gender_miss (gender_preference s) (m_gender m) = false
  /\ ledger_get count (m_index m) < max_mentees_per_mentor.

(** [m] is the first eligible mentor of [ms] whose score no eligible mentor
    of [ms] exceeds: the eligible mentors before it score strictly less,
    those after it at most as much. *)
Definition first_best (max_mentees_per_mentor : Z) (count : gmap nat Z)
    (s : student) (ms : list mentor) (m : mentor) : Prop :=
  exists l1 l2,
    ms = l1 ++ m :: l2
    /\ eligible max_mentees_per_mentor count s m
    /\ (forall m', m' ∈ l1 -> eligible max_mentees_per_mentor count s m' ->
                   campus_score s m' < campus_score s m)
    /\ (forall m', m' ∈ l2 -> eligible max_mentees_per_mentor count s m' ->
                   campus_score s m' <= campus_score s m).

(** Two ledgers that read the same at every label. *)
Definition same_counts (c1 c2 : gmap nat Z) : Prop :=
  forall k, ledger_get c1 k = ledger_get c2 k.

(** The matches that reference the mentor labelled [k]. *)
Definition matches_of (k : nat) (matches : list match_record)
    : list match_record :=
  filter (fun r => Mentor_Index r = k) matches.

End Engine.

(** ** Sample sheets

    A small cohort used to run the definitions: four students and three
    mentors, and a sheet of four students whose ages tie in pairs. *)
Module Examples.
Import Engine.

Definition mk_student (i : nat) (age : option Z) (pref : option string)
    (campus : string) : student :=
  Student i age pref campus CNaN CNaN CNaN CNaN CNaN.

Definition mk_mentor (i : nat) (age : option Z) (title : string)
    (campus : string) : mentor :=
  Mentor i CNaN age (Preprocess.map_title_to_gender (CStr title)) campus
         (CStr title).

Definition students : list student :=
  [ mk_student 0 (Some 30) None "1";
    mk_student 1 (Some 50) (Some "Female") "2";
    mk_student 2 None (Some "Male") "Unknown";
    mk_student 3 (Some 50) (Some "No preference") "1" ].

Definition mentors : list mentor :=
  [ mk_mentor 0 (Some 40) "Mr." "1";
    mk_mentor 1 (Some 60) "Ms." "2";
    mk_mentor 2 (Some 40) "Dr." "1" ].

(** Two students of age 30 followed by two of age 40. *)
Definition tied_students : list student :=
  [ mk_student 0 (Some 30) None "1";
    mk_student 1 (Some 30) None "1";
    mk_student 2 (Some 40) None "1";
    mk_student 3 (Some 40) None "1" ].

End Examples.

(** ** The rest of [preprocess_data] and the main run

    The helpers of [preprocess_data] that the engine's columns come from,
    each on one cell, the prepared row they give, and the run of the main
    block on two sheets read with the default row labels 0, 1, 2, ... *)
Module Prepare.

(** [s] is made of whitespace only. *)
Definition all_space (s : string) : Prop :=
  Text.all_chars Text.is_space s = true.

(** [s] is empty or begins with a character that is not whitespace. *)
Definition no_lead (s : string) : Prop :=
  match s with
  | EmptyString => True
  | String c _ => Text.is_space c = false
  end.

(** [columns.str.lower().str.strip()] on one column name, lines 12-13.
    [None]: the name is outside the model, as it has a character beyond
    the ASCII range, where [lower] follows the case tables of Unicode. *)
Definition normalize_column (name : string) : option string :=
  if Text.is_ascii name then Some (Text.strip (Text.lower name)) else None.

(** [.str.strip()] on one cell of the gender_preference column, line 33:
    a cell that is not a string becomes NaN. *)
Definition clean_gender_preference (c : cell) : option string :=
  match c with
  | CStr s => Some (Utf8.strip s)
  | _ => None
  end.

Definition campus_1_keys : list string := ["Business"; "Medicine"].
Definition campus_2_keys : list string := ["Law"].

(** [assign_campus], lines 41-45. *)
Definition assign_campus (faculty_name : cell) : string :=
  match faculty_name with
  | CStr f =>
      if existsb (fun key => Text.contains key f) campus_1_keys then "1"
      else if existsb (fun key => Text.contains key f) campus_2_keys then "2"
      else "Unknown"
  | _ => "Unknown"
  end.

(** [shorten_school], lines 47-66: the first key of the first list, then
    of the second, that occurs in the name. *)
Definition shorten_school (faculty_name : cell) : string :=
  match faculty_name with
  | CStr f =>
      match List.find (fun key => Text.contains key f) campus_1_keys with
      | Some key => key
      | None =>
          match List.find (fun key => Text.contains key f) campus_2_keys with
          | Some key => key
          | None => "Unknown"
          end
      end
  | _ => "Unknown"
  end.

(** A row of the Students sheet as read, by normalised column name. *)
Record raw_student : Type := RawStudent {
  rs_title : cell;
  rs_gender_preference : cell;
  rs_faculty : cell;
  rs_age : cell;
  rs_phone : cell;
  rs_email : cell;
  rs_personal_email : cell;
  rs_disability : cell;
  rs_activity_1 : cell
}.

(** A row of the Mentors sheet as read. *)
Record raw_mentor : Type := RawMentor {
  rm_title : cell;
  rm_name : cell;
  rm_faculty : cell;
  rm_age : cell
}.

Definition is_str (c : cell) : bool :=
  match c with CStr _ => true | _ => false end.

Definition is_nan (c : cell) : bool :=
  match c with CNaN => true | _ => false end.

(** Whether pandas reads a column as float64: no cell holds a string and
    some cell is empty. *)
Definition float_column (column : list cell) : bool :=
  forallb (fun c => negb (is_str c)) column && existsb is_nan column.

(** Lines 76-78 on one cell of an age column; a cell outside the model
    is left without an age here, and [preprocess_data] below gives no
    result for a sheet that has such a cell. *)
Definition age_cell (float : bool) (raw : cell) : option Z :=
  default None (Preprocess.clean_age float raw).

(** Every cell of an age column is inside the model. *)
Definition covered (column : list cell) : bool :=
  forallb (fun c =>
             bool_decide (is_Some (Preprocess.clean_age (float_column column) c)))
          column.

(** The columns of a prepared student row that the engine reads, for the
    row labelled [i]; [float] tells how the age column was read. *)
Definition prepare_student (float : bool) (i : nat) (r : raw_student)
    : Engine.student :=
  {| Engine.s_index := i;
     Engine.s_age := age_cell float (rs_age r);
     Engine.gender_preference := clean_gender_preference (rs_gender_preference r);
     Engine.s_campus := assign_campus (rs_faculty r);
     Engine.student_phone := rs_phone r;
     Engine.student_email := rs_email r;
     Engine.student_personal_email := rs_personal_email r;
     Engine.disability := rs_disability r;
     Engine.activity_1 := rs_activity_1 r |}.

Definition prepare_mentor (float : bool) (i : nat) (r : raw_mentor)
    : Engine.mentor :=
  {| Engine.m_index := i;
     Engine.m_name := rm_name r;
     Engine.m_age := age_cell float (rm_age r);
     Engine.m_gender := Preprocess.map_title_to_gender (rm_title r);
     Engine.m_campus := assign_campus (rm_faculty r);
     Engine.m_title := rm_title r |}.

(** The prepared sheets: row [i] of a sheet read with the default labels
    has the label [i]. *)
Definition prepared_students (students_df : list raw_student)
    : list Engine.student :=
  imap (prepare_student (float_column (rs_age <$> students_df))) students_df.

Definition prepared_mentors (mentors_df : list raw_mentor)
    : list Engine.mentor :=
  imap (prepare_mentor (float_column (rm_age <$> mentors_df))) mentors_df.

(** Whether [.str] can be taken of a column: pandas refuses it (with an
    AttributeError) for a column with rows of which none holds a string,
    as such a column is read as a numeric one. *)
Definition str_accessor_ok (column : list cell) : bool :=
  match column with
  | [] => true
  | _ => existsb is_str column
  end.

(** [preprocess_data] on two sheets that have the columns it asks for:
    [None] when line 33 raises, and for a sheet with an age cell outside
    the model. *)
Definition preprocess_data (students_df : list raw_student)
    (mentors_df : list raw_mentor)
    : option (list Engine.student * list Engine.mentor) :=
  if str_accessor_ok (rs_gender_preference <$> students_df)
     && covered (rs_age <$> students_df) && covered (rm_age <$> mentors_df)
  then Some (prepared_students students_df, prepared_mentors mentors_df)
  else None.

Definition MENTOR_CAPACITY : Z := 11.

(** The main block, lines 164-186: the matches and the unmatched
    students, or [None] when preprocessing gave no result (when it
    raised, the block prints the error and writes nothing). *)
Definition main (argsort : Frame.sorter) (students_df : list raw_student)
    (mentors_df : list raw_mentor)
    : option (list Engine.match_record * list Engine.student) :=
  match preprocess_data students_df mentors_df with
  | Some (students_processed, mentors_processed) =>
      let matches_df :=
        Engine.match_by_age_and_rules argsort students_processed
          mentors_processed MENTOR_CAPACITY in
      Some (matches_df,
            Engine.unmatched_students students_processed matches_df)
  | None => None
  end.

(** Sample sheets as read. *)
Definition raw_students : list raw_student :=
  [ RawStudent (CStr "Mr.") CNaN (CStr "School of Business") (CInt 30)
      (CStr "555-0100") CNaN CNaN CNaN (CStr "Chess");
    RawStudent (CStr "Ms.") (CStr " Female ") (CStr "Faculty of Law")
      (CStr "50 years") CNaN CNaN CNaN CNaN CNaN;
    RawStudent (CStr "Mr.") (CStr "Male") (CStr "Arts") (CStr "unknown")
      CNaN CNaN CNaN CNaN CNaN ].

Definition raw_mentors : list raw_mentor :=
  [ RawMentor (CStr "Mrs.") (CStr "A") (CStr "Business and Law") (CInt 40);
    RawMentor (CStr "Ms.") (CStr "B") (CStr "Law") (CStr "60") ].

End Prepare.

(** * Properties *)

(** ** Text *)
Section TextFacts.
Import Text.

Lemma starts_with_spec (p s : string) :
  starts_with p s = true <-> exists q, s = p +:+ q.
Proof.
  revert s; induction p as [|a p IH]; intros s; simpl.
  - split; [intros _; eauto | done].
  - destruct s as [|b s]; simpl.
    + split; [done | intros [q Hq]; discriminate].
    + rewrite andb_true_iff, bool_decide_eq_true, IH. split.
      * intros [-> [q ->]]. eauto.
      * intros [q Hq]. injection Hq as -> ->. eauto.
Qed.

Lemma contains_spec (sub s : string) :
  contains sub s = true <-> occurs_in sub s.
Proof.
  unfold occurs_in. split.
  - induction s as [|c s IH]; simpl; rewrite orb_true_iff.
    + intros [H|H]; [|done]. apply starts_with_spec in H as [q ->].
      exists EmptyString, q. done.
    + intros [H|H].
      * apply starts_with_spec in H as [q ->]. exists EmptyString, q. done.
      * destruct (IH H) as (p & q & ->). exists (String c p), q. done.
  - intros (p & q & ->). induction p as [|c p IH]; simpl.
    + destruct (sub +:+ q) eqn:E; simpl; apply orb_true_iff; left;
        apply starts_with_spec; exists q; done.
    + apply orb_true_iff. right. exact IH.
Qed.

Lemma contains_false (sub s : string) :
  contains sub s = false <-> ~ occurs_in sub s.
Proof.
  rewrite <- contains_spec. destruct (contains sub s); split; done.
Qed.

Lemma drop_non_digits_app (pre rest : string) :
  all_chars non_digit pre = true ->
  drop_non_digits (pre +:+ rest) = drop_non_digits rest.
Proof.
  induction pre as [|c pre IH]; simpl; [done|].
  unfold non_digit at 1. intros [Hc Hpre]%andb_true_iff.
  destruct (is_digit c); [done|]. auto.
Qed.

Lemma drop_non_digits_none (s : string) :
  all_chars non_digit s = true -> drop_non_digits s = EmptyString.
Proof.
  induction s as [|c s IH]; simpl; [done|].
  unfold non_digit at 1. intros [Hc Hs]%andb_true_iff.
  destruct (is_digit c); [done|]. auto.
Qed.

Lemma take_digits_app (run post : string) :
  all_chars is_digit run = true -> ends_run post = true ->
  take_digits (run +:+ post) = run.
Proof.
  intros Hrun Hpost. induction run as [|c run IH]; simpl in *.
  - destruct post as [|c post]; simpl in *; [done|].
    unfold non_digit in Hpost. destruct (is_digit c); done.
  - apply andb_true_iff in Hrun as [-> Hrun]. f_equal. auto.
Qed.

Lemma search_digits_run (pre run post : string) :
  all_chars non_digit pre = true ->
  all_chars is_digit run = true -> run <> EmptyString ->
  ends_run post = true ->
  search_digits (pre +:+ run +:+ post) = Some run.
Proof.
  intros Hpre Hrun Hne Hpost. unfold search_digits.
  rewrite drop_non_digits_app by done.
  destruct run as [|c run]; [done|]. simpl in *.
  apply andb_true_iff in Hrun as [Hc Hrun]. rewrite Hc. simpl. rewrite Hc.
  rewrite take_digits_app by done. done.
Qed.

Lemma search_digits_none (s : string) :
  all_chars non_digit s = true -> search_digits s = None.
Proof.
  intros H. unfold search_digits. rewrite drop_non_digits_none by done. done.
Qed.

Lemma decimal_acc_snoc (acc : Z) (s : string) (c : ascii) :
  decimal_acc acc (s +:+ String c EmptyString)
  = 10 * decimal_acc acc s + digit_value c.
Proof. revert acc; induction s as [|d s IH]; intros acc; simpl; [done|]. apply IH. Qed.

End TextFacts.

(** ** Priority ordering *)
Section FrameFacts.
Import Frame.
Context {A : Type} (age : A -> option Z).
Implicit Types (df : list A) (r : A).

Lemma keyed_cons r df :
  keyed age (r :: df)
  = match age r with Some a => (a, r) :: keyed age df | None => keyed age df end.
Proof. unfold keyed. simpl. destruct (age r); done. Qed.

Lemma filter_has_age_eq a r df :
  age r = a -> filter (has_age age a) (r :: df) = r :: filter (has_age age a) df.
Proof. intros H. by apply filter_cons_True. Qed.

Lemma filter_has_age_ne a r df :
  age r <> a -> filter (has_age age a) (r :: df) = filter (has_age age a) df.
Proof. intros H. by apply filter_cons_False. Qed.

Lemma keyed_age df : Forall (fun x => age x.2 = Some x.1) (keyed age df).
Proof.
  induction df as [|r df IH]; [constructor|].
  rewrite keyed_cons. destruct (age r) eqn:E; [constructor|]; done.
Qed.

Lemma keyed_split df : (snd <$> keyed age df) ++ nan_rows age df ≡ₚ df.
Proof.
  unfold nan_rows. induction df as [|r df IH]; [done|].
  rewrite keyed_cons. destruct (age r) eqn:E; simpl.
  - rewrite filter_has_age_ne by congruence. by constructor.
  - rewrite filter_has_age_eq by done. rewrite <- Permutation_middle.
    by constructor.
Qed.

Lemma keyed_filter df (k : Z) :
  snd <$> filter (fun x => x.1 = k) (keyed age df)
  = filter (has_age age (Some k)) df.
Proof.
  induction df as [|r df IH]; [done|].
  rewrite keyed_cons. destruct (age r) as [a|] eqn:E.
  - rewrite filter_cons. simpl. destruct (decide (a = k)) as [->|Hne].
    + rewrite filter_has_age_eq by done. simpl. by f_equal.
    + rewrite filter_has_age_ne by congruence. done.
  - rewrite filter_has_age_ne by congruence. done.
Qed.

Lemma keyed_known_filter (l : list (Z * A)) (k : Z) :
  Forall (fun x => age x.2 = Some x.1) l ->
  filter (has_age age (Some k)) (snd <$> l)
  = snd <$> filter (fun x => x.1 = k) l.
Proof.
  induction 1 as [|x l Hx _ IH]; [done|].
  rewrite fmap_cons. destruct (decide (x.1 = k)) as [Hk|Hk].
  - rewrite filter_has_age_eq, filter_cons_True, IH by congruence. done.
  - rewrite filter_has_age_ne, filter_cons_False by congruence. done.
Qed.

Lemma keyed_known_no_nan (l : list (Z * A)) :
  Forall (fun x => age x.2 = Some x.1) l ->
  filter (has_age age None) (snd <$> l) = [].
Proof.
  induction 1 as [|x l Hx _ IH]; [done|].
  rewrite fmap_cons, filter_has_age_ne by congruence. done.
Qed.

Lemma filter_has_age_same (a : option Z) df :
  filter (has_age age a) (filter (has_age age a) df) = filter (has_age age a) df.
Proof. apply list_filter_filter_l. done. Qed.

Lemma filter_has_age_other (a b : option Z) df :
  a <> b -> filter (has_age age a) (filter (has_age age b) df) = [].
Proof.
  intros Hab. induction df as [|r df IH]; [done|].
  destruct (decide (age r = b)) as [Hb|Hb].
  - rewrite (filter_has_age_eq b) by done.
    rewrite filter_has_age_ne by congruence. done.
  - rewrite (filter_has_age_ne b) by done. done.
Qed.

End FrameFacts.

Section SortedFacts.
Context {A : Type} (R : relation A).

Lemma StronglySorted_reverse (l : list A) :
  StronglySorted R l -> StronglySorted (flip R) (reverse l).
Proof.
  induction 1 as [|x l _ IH Hx]; [constructor|].
  rewrite reverse_cons. apply StronglySorted_app_2; [|done|repeat constructor].
  intros y x' Hy ->%list_elem_of_singleton. unfold flip.
  rewrite Forall_forall in Hx. apply Hx. by apply elem_of_reverse.
Qed.

End SortedFacts.

Section SortValuesFacts.
Import Frame.
Context (argsort : sorter) {A : Type} (age : A -> option Z) (df : list A).
Context (Hsorted : sorted_by argsort age df).

Lemma sorted_keyed_age :
  Forall (fun x => age x.2 = Some x.1)
         (reverse (argsort A (reverse (keyed age df)))).
Proof.
  apply Forall_reverse. destruct Hsorted as [Hp _].
  rewrite Hp. apply Forall_reverse, keyed_age.
Qed.

Lemma sort_values_Permutation : sort_values argsort age df ≡ₚ df.
Proof.
  unfold sort_values. destruct Hsorted as [Hp _].
  rewrite reverse_Permutation, Hp, reverse_Permutation. apply keyed_split.
Qed.

Lemma nan_rows_sorted : StronglySorted (by_age_desc age) (nan_rows age df).
Proof.
  clear Hsorted. unfold nan_rows. induction df as [|r df' IH]; [constructor|].
  destruct (decide (age r = None)) as [Hr|Hr];
    [rewrite filter_has_age_eq by done|by rewrite filter_has_age_ne].
  constructor; [exact IH|]. apply Forall_forall.
  intros r' [Hr' _]%list_elem_of_filter.
  unfold by_age_desc, age_ge. rewrite Hr'. by destruct (age r).
Qed.

Lemma sort_values_sorted :
  StronglySorted (by_age_desc age) (sort_values argsort age df).
Proof.
  unfold sort_values. destruct Hsorted as [_ Hs].
  pose proof sorted_keyed_age as Hage.
  apply StronglySorted_reverse in Hs.
  apply StronglySorted_app_2; [| |apply nan_rows_sorted].
  - intros r1 r2 _ [Hr2 _]%list_elem_of_filter.
    unfold by_age_desc, age_ge. rewrite Hr2. by destruct (age r1).
  - revert Hs Hage. generalize (reverse (argsort A (reverse (keyed age df)))).
    intros l Hs. induction Hs as [|x l _ IH Hx]; intros Hage; [constructor|].
    apply Forall_cons in Hage as [Hx' Hage]. rewrite fmap_cons.
    constructor; [by apply IH|].
    rewrite Forall_fmap. rewrite Forall_forall in Hx, Hage |- *.
    intros y Hy. simpl. unfold by_age_desc, age_ge.
    rewrite Hx', (Hage y Hy). apply (Hx y Hy).
Qed.

Lemma sort_values_nan_last :
  filter (has_age age None) (sort_values argsort age df)
  = filter (has_age age None) df.
Proof.
  unfold sort_values. rewrite filter_app.
  rewrite keyed_known_no_nan by apply sorted_keyed_age.
  unfold nan_rows. rewrite filter_has_age_same. done.
Qed.

Lemma sort_values_stable :
  ties_kept_by argsort age df ->
  forall a, filter (has_age age a) (sort_values argsort age df)
            = filter (has_age age a) df.
Proof.
  intros Hst [k|]; [|apply sort_values_nan_last].
  unfold sort_values. rewrite filter_app.
  rewrite keyed_known_filter by apply sorted_keyed_age.
  rewrite filter_reverse, Hst, filter_reverse, reverse_involutive, keyed_filter.
  unfold nan_rows. rewrite filter_has_age_other by done. apply app_nil_r.
Qed.

End SortValuesFacts.

(** ** Straight insertion is a stable sort *)
Section InsertionFacts.
Import Frame.
Context {A : Type}.
Implicit Types (x : Z * A) (l : list (Z * A)).

Lemma insert_by_key_Permutation x l : insert_by_key x l ≡ₚ x :: l.
Proof.
  induction l as [|y l IH]; simpl; [done|].
  case_bool_decide; [done|]. rewrite IH. apply Permutation_swap.
Qed.

Lemma insert_by_key_sorted x l :
  StronglySorted key_le l -> StronglySorted key_le (insert_by_key x l).
Proof.
  induction 1 as [|y l Hl IH Hy]; simpl; [repeat constructor|].
  case_bool_decide as Hxy.
  - constructor; [by constructor|]. constructor; [done|].
    eapply Forall_impl; [exact Hy|]. unfold key_le. intros z Hz. simpl in *. lia.
  - constructor; [done|]. rewrite insert_by_key_Permutation.
    constructor; [|done]. unfold key_le. lia.
Qed.

Lemma insert_by_key_filter_eq x l :
  filter (fun y => y.1 = x.1) (insert_by_key x l)
  = x :: filter (fun y => y.1 = x.1) l.
Proof.
  induction l as [|y l IH]; simpl; [by rewrite filter_cons_True|].
  case_bool_decide as Hxy; [by rewrite filter_cons_True|].
  rewrite !(filter_cons_False _ y) by lia. done.
Qed.

Lemma insert_by_key_filter_ne x l (k : Z) :
  x.1 <> k ->
  filter (fun y => y.1 = k) (insert_by_key x l) = filter (fun y => y.1 = k) l.
Proof.
  intros Hk. induction l as [|y l IH]; simpl; [by rewrite filter_cons_False|].
  case_bool_decide as Hxy; [by rewrite filter_cons_False|].
  rewrite !(filter_cons _ y), IH. done.
Qed.

End InsertionFacts.

Lemma insertion_sort_sorts : Frame.sorts Frame.insertion_sort.
Proof.
  intros A l. unfold Frame.sorts_list, Frame.insertion_sort.
  induction l as [|x l [IHp IHs]]; simpl.
  - split; [done|constructor].
  - split; [by rewrite insert_by_key_Permutation, IHp|].
    by apply insert_by_key_sorted.
Qed.

Lemma front_insertion_sort_sorts : Frame.sorts Frame.front_insertion_sort.
Proof.
  intros A l. unfold Frame.sorts_list, Frame.front_insertion_sort.
  cut (forall placed : list (Z * A),
          StronglySorted Frame.key_le placed ->
          foldl (fun placed x => Frame.insert_by_key x placed) placed l
            ≡ₚ l ++ placed
          /\ StronglySorted Frame.key_le
               (foldl (fun placed x => Frame.insert_by_key x placed) placed l)).
  { intros H. destruct (H [] (SSorted_nil _)) as [Hp Hs].
    rewrite app_nil_r in Hp. done. }
  induction l as [|x l IH]; intros placed Hplaced; simpl; [done|].
  destruct (IH (Frame.insert_by_key x placed)) as [Hp Hs];
    [by apply insert_by_key_sorted|].
  split; [|done].
  rewrite Hp, insert_by_key_Permutation. by rewrite Permutation_middle.
Qed.

Lemma insertion_sort_stable : Frame.stable Frame.insertion_sort.
Proof.
  intros A l k. unfold Frame.insertion_sort. induction l as [|x l IH]; simpl; [done|].
  destruct (decide (x.1 = k)) as [<-|Hk].
  - rewrite insert_by_key_filter_eq, IH, filter_cons_True; done.
  - rewrite insert_by_key_filter_ne, IH, filter_cons_False; done.
Qed.

(** ** The capacity ledger *)
Section LedgerFacts.
Import Engine.
Implicit Types (cnt : gmap nat Z) (k j : nat).

Lemma ledger_get_empty k : ledger_get ∅ k = 0.
Proof. unfold ledger_get. by rewrite lookup_empty. Qed.

Lemma ledger_get_touch cnt k j :
  ledger_get (ledger_touch cnt k) j = ledger_get cnt j.
Proof.
  unfold ledger_touch. unfold ledger_get at 1.
  destruct (decide (k = j)) as [->|Hne].
  - by rewrite lookup_insert_eq.
  - by rewrite lookup_insert_ne.
Qed.

Lemma ledger_get_incr cnt k j :
  ledger_get (ledger_incr cnt k) j
  = ledger_get cnt j + (if decide (j = k) then 1 else 0).
Proof.
  unfold ledger_incr. unfold ledger_get at 1.
  destruct (decide (j = k)) as [->|Hne].
  - by rewrite lookup_insert_eq.
  - rewrite lookup_insert_ne by done. unfold ledger_get. lia.
Qed.

End LedgerFacts.

(** ** The scan of the mentors for one student *)
Section ScanFacts.
Import Engine.
Context (max : Z) (s : student).
Implicit Types (m : mentor) (ms : list mentor) (cnt : gmap nat Z)
  (st : scan_state).

Lemma campus_score_range m : 0 <= campus_score s m <= 1.
Proof. unfold campus_score. destruct (_ && _); lia. Qed.

Lemma eligible_same_counts cnt1 cnt2 m :
  same_counts cnt1 cnt2 -> eligible max cnt1 s m -> eligible max cnt2 s m.
Proof. intros H [Hg Hc]. split; [done|]. by rewrite <- H. Qed.

Lemma scan_step_skip st m :
  ~ eligible max (count st) s m ->
  best_mentor (scan_step max s st m) = best_mentor st
  /\ highest_score (scan_step max s st m) = highest_score st
  /\ same_counts (count (scan_step max s st m)) (count st).
Proof.
  intros Hne. unfold scan_step.
  destruct (gender_miss _ _) eqn:Hg; [done|].
  case_bool_decide as Hc; simpl.
  - repeat split. intros k. apply ledger_get_touch.
  - destruct Hne. split; [done|lia].
Qed.

Lemma scan_step_take st m :
  eligible max (count st) s m ->
  same_counts (count (scan_step max s st m)) (count st)
  /\ if bool_decide (highest_score st < campus_score s m)
     then best_mentor (scan_step max s st m) = Some m
          /\ highest_score (scan_step max s st m) = campus_score s m
     else best_mentor (scan_step max s st m) = best_mentor st
          /\ highest_score (scan_step max s st m) = highest_score st.
Proof.
  intros [Hg Hc]. unfold scan_step. rewrite Hg.
  rewrite bool_decide_eq_false_2 by lia.
  case_bool_decide; simpl; (split; [intros k; apply ledger_get_touch|done]).
Qed.

Lemma scan_snoc ms m cnt :
  scan max s (ms ++ [m]) cnt = scan_step max s (scan max s ms cnt) m.
Proof. unfold scan. by rewrite foldl_app. Qed.

(** What the scan leaves: the ledger reads as before, and the best mentor
    is the first eligible one of maximal score, or none when no mentor is
    eligible. *)
Lemma scan_spec ms cnt :
  same_counts (count (scan max s ms cnt)) cnt
  /\ match best_mentor (scan max s ms cnt) with
     | Some m => first_best max cnt s ms m
                 /\ highest_score (scan max s ms cnt) = campus_score s m
     | None => highest_score (scan max s ms cnt) = -1
               /\ forall m, m ∈ ms -> ~ eligible max cnt s m
     end.
Proof.
  induction ms as [|m ms [IHc IHb]] using rev_ind.
  - split; [done|]. simpl. split; [done|]. intros m Hm. by apply elem_of_nil in Hm.
  - rewrite scan_snoc. set (st := scan max s ms cnt) in *.
    destruct (decide (eligible max (count st) s m)) as [He|He].
    + destruct (scan_step_take st m He) as [Hc Hb].
      assert (eligible max cnt s m) as He' by (by eapply eligible_same_counts).
      split; [intros k; by rewrite Hc|].
      pose proof (campus_score_range m) as Hr.
      case_bool_decide as Hlt; destruct Hb as [-> ->].
      * split; [|done]. exists ms, []. split; [done|]. split; [done|].
        split; [|intros m' Hm'; by apply elem_of_nil in Hm'].
        intros m' Hm' Hel. destruct (best_mentor st) as [b|].
        -- destruct IHb as [(l1 & l2 & -> & Hb & H1 & H2) Hh].
           rewrite Hh in Hlt.
           apply elem_of_app in Hm' as [Hm'|Hm'];
             [specialize (H1 m' Hm' Hel); lia|].
           apply elem_of_cons in Hm' as [->|Hm']; [done|].
           specialize (H2 m' Hm' Hel). lia.
        -- destruct IHb as [_ Hnone]. by destruct (Hnone m' Hm').
      * destruct (best_mentor st) as [b|].
        -- destruct IHb as [(l1 & l2 & -> & Hb & H1 & H2) Hh]. split; [|done].
           exists l1, (l2 ++ [m]). split; [by rewrite <- app_assoc|].
           split; [done|]. split; [done|].
           intros m' [Hm'| ->%list_elem_of_singleton]%elem_of_app Hel;
             [by apply H2|lia].
        -- destruct IHb as [Hh _]. lia.
    + destruct (scan_step_skip st m He) as (-> & -> & Hc).
      assert (~ eligible max cnt s m) as He'.
      { intros H. apply He. eapply eligible_same_counts; [|done].
        intros k. by rewrite IHc. }
      split; [intros k; by rewrite Hc|].
      destruct (best_mentor st) as [b|].
      * destruct IHb as [(l1 & l2 & -> & Hb & H1 & H2) Hh]. split; [|done].
        exists l1, (l2 ++ [m]). split; [by rewrite <- app_assoc|].
        split; [done|]. split; [done|].
        intros m' [Hm'| ->%list_elem_of_singleton]%elem_of_app Hel;
          [by apply H2|done].
      * destruct IHb as [Hh Hnone]. split; [done|].
        intros m' [Hm'| ->%list_elem_of_singleton]%elem_of_app; [by apply Hnone|done].
Qed.

End ScanFacts.

(** ** The matching loop *)
Section LoopFacts.
Import Engine.
Context (max : Z).
Implicit Types (s : student) (m : mentor) (ms : list mentor)
  (ss : list student) (acc : gmap nat Z * list match_record).

Lemma match_loop_cons s ss ms acc :
  match_loop max (s :: ss) ms acc = match_loop max ss ms (assign max ms acc s).
Proof. done. Qed.

(** One student: either the first best mentor is taken, one record is
    appended and one count goes up by one, or no mentor is eligible and
    nothing changes. *)
Lemma assign_cases ms acc s :
  (exists m,
      best_mentor (scan max s ms acc.1) = Some m
      /\ first_best max acc.1 s ms m
      /\ (assign max ms acc s).2 = acc.2 ++ [make_match s m (campus_score s m)]
      /\ forall k, ledger_get (assign max ms acc s).1 k
                   = ledger_get acc.1 k + (if decide (k = m_index m) then 1 else 0))
  \/ (best_mentor (scan max s ms acc.1) = None
      /\ (forall m, m ∈ ms -> ~ eligible max acc.1 s m)
      /\ (assign max ms acc s).2 = acc.2
      /\ same_counts (assign max ms acc s).1 acc.1).
Proof.
  destruct (scan_spec max s ms acc.1) as [Hc Hb]. unfold assign.
  destruct (best_mentor (scan max s ms acc.1)) as [m|].
  - left. exists m. destruct Hb as [Hfb ->]. repeat split; [done|].
    intros k. simpl. by rewrite ledger_get_incr, Hc.
  - right. destruct Hb as [_ Hnone]. done.
Qed.

Lemma matches_of_cons k (r : match_record) (l : list match_record) :
  Z.of_nat (length (matches_of k (r :: l)))
  = (if decide (k = Mentor_Index r) then 1 else 0)
    + Z.of_nat (length (matches_of k l)).
Proof.
  unfold matches_of. rewrite filter_cons.
  destruct (decide (Mentor_Index r = k)) as [<-|Hne].
  - rewrite decide_True by done. simpl length. lia.
  - rewrite decide_False by done. lia.
Qed.

(** The whole loop from any ledger and list of matches. *)
Lemma match_loop_spec ss ms acc :
  exists new,
    (match_loop max ss ms acc).2 = acc.2 ++ new
    /\ (forall k, ledger_get (match_loop max ss ms acc).1 k
                  = ledger_get acc.1 k + Z.of_nat (length (matches_of k new)))
    /\ Forall (fun r => exists s m,
                   s ∈ ss /\ m ∈ ms
                   /\ r = make_match s m (campus_score s m)
                   /\ gender_miss (gender_preference s) (m_gender m) = false)
              new
    /\ (Student_Index <$> new) `sublist_of` (s_index <$> ss)
    /\ ((forall k, ledger_get acc.1 k <= max) ->
        forall k, ledger_get (match_loop max ss ms acc).1 k <= max).
Proof.
  revert acc. induction ss as [|s ss IH]; intros acc.
  - exists []. simpl. rewrite app_nil_r. repeat split; try done.
    intros k. unfold matches_of. simpl. lia.
  - rewrite match_loop_cons.
    destruct (IH (assign max ms acc s)) as (new & Hnew & Hled & Hall & Hsub & Hcap).
    assert (Forall (fun r => exists s0 m,
                 s0 ∈ s :: ss /\ m ∈ ms
                 /\ r = make_match s0 m (campus_score s0 m)
                 /\ gender_miss (gender_preference s0) (m_gender m) = false) new)
      as Hall'.
    { eapply Forall_impl; [exact Hall|]. intros r (s0 & m & Hs0 & Hrest).
      exists s0, m. split; [by apply list_elem_of_further|done]. }
    destruct (assign_cases ms acc s)
      as [(m & _ & (l1 & l2 & -> & [Hg Hlt] & _) & Hrec & Hinc)
         |(_ & _ & Hrec & Hsame)].
    + exists (make_match s m (campus_score s m) :: new).
      split; [by rewrite Hnew, Hrec, <- app_assoc|].
      split; [intros k; rewrite Hled, Hinc, matches_of_cons; simpl; lia|].
      split.
      { constructor; [|done]. exists s, m.
        split; [by apply list_elem_of_here|]. split; [|done].
        apply elem_of_app. right. by apply list_elem_of_here. }
      split; [rewrite !fmap_cons; simpl; by apply sublist_skip|].
      intros H0. apply Hcap. intros k. rewrite Hinc.
      specialize (H0 k). case_decide; [subst k|]; lia.
    + exists new. split; [by rewrite Hnew, Hrec|].
      split; [intros k; by rewrite Hled, Hsame|]. split; [done|].
      split; [rewrite fmap_cons; by apply sublist_cons|].
      intros H0. apply Hcap. intros k. by rewrite Hsame.
Qed.

(** The loop looks at a ledger only through the counts it reads. *)
Lemma scan_step_same_counts s (st1 st2 : scan_state) m :
  same_counts (count st1) (count st2) ->
  best_mentor st1 = best_mentor st2 ->
  highest_score st1 = highest_score st2 ->
  same_counts (count (scan_step max s st1 m)) (count (scan_step max s st2 m))
  /\ best_mentor (scan_step max s st1 m) = best_mentor (scan_step max s st2 m)
  /\ highest_score (scan_step max s st1 m) = highest_score (scan_step max s st2 m).
Proof.
  intros Hc Hb Hh. unfold scan_step.
  destruct (gender_miss _ _); [done|].
  rewrite (Hc (m_index m)), Hh, Hb.
  assert (same_counts (ledger_touch (count st1) (m_index m))
                      (ledger_touch (count st2) (m_index m))) as Ht.
  { intros k. by rewrite !ledger_get_touch. }
  repeat case_bool_decide; done.
Qed.

Lemma scan_same_counts s ms (c1 c2 : gmap nat Z) :
  same_counts c1 c2 ->
  same_counts (count (scan max s ms c1)) (count (scan max s ms c2))
  /\ best_mentor (scan max s ms c1) = best_mentor (scan max s ms c2)
  /\ highest_score (scan max s ms c1) = highest_score (scan max s ms c2).
Proof.
  intros Hc. induction ms as [|m ms (IH1 & IH2 & IH3)] using rev_ind; [done|].
  rewrite !scan_snoc. by apply scan_step_same_counts.
Qed.

Lemma assign_same_counts ms s (c1 c2 : gmap nat Z) (l : list match_record) :
  same_counts c1 c2 ->
  same_counts (assign max ms (c1, l) s).1 (assign max ms (c2, l) s).1
  /\ (assign max ms (c1, l) s).2 = (assign max ms (c2, l) s).2.
Proof.
  intros Hc. destruct (scan_same_counts s ms c1 c2 Hc) as (H1 & H2 & H3).
  unfold assign. simpl. rewrite H2, H3.
  destruct (best_mentor (scan max s ms c2)); [|done].
  split; [|done]. intros k. simpl. by rewrite !ledger_get_incr, H1.
Qed.

Lemma match_loop_same_counts ss ms (c1 c2 : gmap nat Z) (l : list match_record) :
  same_counts c1 c2 ->
  same_counts (match_loop max ss ms (c1, l)).1 (match_loop max ss ms (c2, l)).1
  /\ (match_loop max ss ms (c1, l)).2 = (match_loop max ss ms (c2, l)).2.
Proof.
  revert c1 c2 l. induction ss as [|s ss IH]; intros c1 c2 l Hc; [done|].
  rewrite !match_loop_cons.
  destruct (assign_same_counts ms s c1 c2 l Hc) as [H1 H2].
  destruct (assign max ms (c1, l) s) as [c1' l1'],
           (assign max ms (c2, l) s) as [c2' l2']. simpl in *. subst l2'.
  by apply IH.
Qed.

(** A student for whom every mentor fails a hard filter. *)
Lemma assign_skip ms acc s :
  (forall m, m ∈ ms ->
             gender_miss (gender_preference s) (m_gender m) = true
             \/ max <= ledger_get acc.1 (m_index m)) ->
  (assign max ms acc s).2 = acc.2
  /\ same_counts (assign max ms acc s).1 acc.1.
Proof.
  intros Hno.
  destruct (assign_cases ms acc s)
    as [(m & _ & (l1 & l2 & -> & [Hg Hc] & _) & _)|(_ & _ & Hrec & Hsame)];
    [|done].
  destruct (Hno m) as [H|H]; [|congruence|lia].
  apply elem_of_app. right. apply list_elem_of_here.
Qed.

End LoopFacts.

(** ** The whole run *)
Section RunFacts.
Import Engine.
Context (argsort : Frame.sorter).
Implicit Types (students : list student) (mentors : list mentor) (max : Z).

Lemma elem_of_sort_values {A} (age : A -> option Z) (df : list A) (r : A) :
  Frame.sorted_by argsort age df ->
  r ∈ Frame.sort_values argsort age df <-> r ∈ df.
Proof. intros Hs. by rewrite sort_values_Permutation. Qed.

Lemma NoDup_fmap_eq {A B} (f : A -> B) (l : list A) (x y : A) :
  NoDup (f <$> l) -> x ∈ l -> y ∈ l -> f x = f y -> x = y.
Proof.
  induction l as [|z l IH]; [by intros _ ?%elem_of_nil|].
  rewrite fmap_cons. intros [Hz Hl]%NoDup_cons.
  intros [->|Hx]%elem_of_cons [->|Hy]%elem_of_cons Hf; [done| | |by apply IH].
  - destruct Hz. rewrite Hf. by apply list_elem_of_fmap_2.
  - destruct Hz. rewrite <- Hf. by apply list_elem_of_fmap_2.
Qed.

(** The result and the final ledger of a run. *)
Lemma run_spec students mentors max :
  let r := run argsort students mentors max in
  (forall k, ledger_get r.1 k = Z.of_nat (length (matches_of k r.2)))
  /\ Forall (fun rec => exists s m,
                 s ∈ Frame.sort_values argsort s_age students
                 /\ m ∈ Frame.sort_values argsort m_age mentors
                 /\ rec = make_match s m (campus_score s m)
                 /\ gender_miss (gender_preference s) (m_gender m) = false)
            r.2
  /\ (Student_Index <$> r.2)
       `sublist_of` (s_index <$> Frame.sort_values argsort s_age students)
  /\ (0 <= max -> forall k, ledger_get r.1 k <= max).
Proof.
  intros r. unfold r, run.
  destruct (match_loop_spec max (Frame.sort_values argsort s_age students)
              (Frame.sort_values argsort m_age mentors) (∅, []))
    as (new & Hnew & Hled & Hall & Hsub & Hcap).
  simpl in Hnew. rewrite Hnew. simpl in Hled.
  split; [intros k; by rewrite Hled, ledger_get_empty|].
  split; [done|]. split; [done|].
  intros Hmax. apply Hcap. intros k. simpl. by rewrite ledger_get_empty.
Qed.

(** With unique labels, a record of the result is the record made from
    the student and the mentor it names, and that pair passed the gender
    filter. *)
Lemma match_origin students mentors max rec s m :
  Frame.sorted_by argsort s_age students ->
  Frame.sorted_by argsort m_age mentors ->
  NoDup (s_index <$> students) -> NoDup (m_index <$> mentors) ->
  rec ∈ match_by_age_and_rules argsort students mentors max ->
  s ∈ students -> m ∈ mentors ->
  s_index s = Student_Index rec -> m_index m = Mentor_Index rec ->
  rec = make_match s m (campus_score s m)
  /\ gender_miss (gender_preference s) (m_gender m) = false.
Proof.
  intros Hss Hsm Hds Hdm Hrec Hin_s Hin_m His Him.
  destruct (run_spec students mentors max) as (_ & Hall & _).
  rewrite Forall_forall in Hall.
  destruct (Hall rec Hrec) as (s' & m' & Hs' & Hm' & -> & Hg).
  apply elem_of_sort_values in Hs'; [|done].
  apply elem_of_sort_values in Hm'; [|done].
  simpl in His, Him.
  assert (s = s') as <- by (by eapply (NoDup_fmap_eq s_index students)).
  assert (m = m') as <- by (by eapply (NoDup_fmap_eq m_index mentors)).
  done.
Qed.

Lemma matched_indices_NoDup students mentors max :
  Frame.sorted_by argsort s_age students -> NoDup (s_index <$> students) ->
  NoDup (Student_Index <$> match_by_age_and_rules argsort students mentors max).
Proof.
  intros Hs Hd. destruct (run_spec students mentors max) as (_ & _ & Hsub & _).
  eapply sublist_NoDup; [|exact Hsub].
  by rewrite sort_values_Permutation.
Qed.

Lemma matched_indices_known students mentors max (i : nat) :
  Frame.sorted_by argsort s_age students ->
  i ∈ Student_Index <$> match_by_age_and_rules argsort students mentors max ->
  i ∈ s_index <$> students.
Proof.
  intros Hs Hi. destruct (run_spec students mentors max) as (_ & _ & Hsub & _).
  eapply elem_of_sublist in Hsub; [|exact Hi].
  by rewrite sort_values_Permutation in Hsub.
Qed.

Lemma unmatched_students_filter students (matches : list match_record) :
  unmatched_students students matches
  = filter (fun s => s_index s ∉ Student_Index <$> matches) students.
Proof.
  destruct matches as [|r matches]; [|done]. simpl.
  induction students as [|s students IH]; [done|].
  rewrite filter_cons_True; [by f_equal|]. apply not_elem_of_nil.
Qed.

End RunFacts.

Section GenderFacts.
Import Engine.

Lemma campus_score_one (s : student) (m : mentor) :
  campus_score s m = 1 <-> m_campus m = s_campus s /\ s_campus s <> "Unknown".
Proof.
  unfold campus_score. destruct (decide (s_campus s = m_campus m)) as [He|He];
    destruct (decide (s_campus s = "Unknown")) as [Hu|Hu].
  - rewrite bool_decide_eq_true_2, (bool_decide_eq_true_2 _ Hu) by done. simpl.
    split; [lia|]. by intros [_ ?].
  - rewrite bool_decide_eq_true_2, (bool_decide_eq_false_2 _ Hu) by done. simpl.
    done.
  - rewrite bool_decide_eq_false_2 by done. simpl. split; [lia|].
    intros [? _]. congruence.
  - rewrite bool_decide_eq_false_2 by done. simpl. split; [lia|].
    intros [? _]. congruence.
Qed.

Lemma gender_miss_false (pref : option string) (g : string) :
  gender_miss pref g = false <->
  (pref = Some "Male" -> g = "Male") /\ (pref = Some "Female" -> g = "Female").
Proof.
  unfold gender_miss. rewrite orb_false_iff, !andb_false_iff.
  rewrite !negb_false_iff, !bool_decide_eq_false, !bool_decide_eq_true.
  split.
  - intros [[H1|H1] [H2|H2]]; split; intros H; congruence.
  - intros [H1 H2]. split.
    + destruct (decide (pref = Some "Male")); [right; auto|left; done].
    + destruct (decide (pref = Some "Female")); [right; auto|left; done].
Qed.

End GenderFacts.

(** * Sample runs *)

Example title_mrs : Preprocess.map_title_to_gender (CStr " Mrs. ") = "Male".
Proof. reflexivity. Qed.

Example title_ms : Preprocess.map_title_to_gender (CStr "MS") = "Female".
Proof. reflexivity. Qed.

Example age_range : Preprocess.clean_age false (CStr "25-30") = Some (Some 25).
Proof. vm_compute. reflexivity. Qed.

Example age_int : Preprocess.clean_age false (CInt 41) = Some (Some 41).
Proof. vm_compute. reflexivity. Qed.

(** Beside an empty cell the column is read as float64 and 41 prints as
    41.0; the age is the same. *)
Example age_float :
  Preprocess.astype_str true (CInt 41) = Some "41.0"
  /\ Preprocess.clean_age true (CInt 41) = Some (Some 41).
Proof. split; vm_compute; reflexivity. Qed.

Example age_nan : Preprocess.clean_age true CNaN = Some None.
Proof. vm_compute. reflexivity. Qed.

(** A digit of another script (here U+0662 after '1') puts the string
    outside the model, and so does an integer beyond 2^53. *)
Example age_outside :
  Preprocess.age_of_string
    (String "1" (String (ascii_of_nat 217) (String (ascii_of_nat 162) "")))
  = None
  /\ Preprocess.clean_age true (CInt (10 ^ 16)) = None.
Proof. split; vm_compute; reflexivity. Qed.

(** Padding with a no-break space is stripped as a blank is. *)
Example strip_nbsp :
  Utf8.strip (" " +:+ "Male" +:+ Utf8.nbsp +:+ Utf8.em_space) = "Male".
Proof. vm_compute. reflexivity. Qed.

Example run_sample :
  Engine.match_by_age_and_rules Frame.insertion_sort
    Examples.students Examples.mentors 1
  = [ Engine.make_match (Examples.mk_student 1 (Some 50) (Some "Female") "2")
        (Examples.mk_mentor 1 (Some 60) "Ms." "2") 1;
      Engine.make_match (Examples.mk_student 3 (Some 50) (Some "No preference") "1")
        (Examples.mk_mentor 0 (Some 40) "Mr." "1") 1;
      Engine.make_match (Examples.mk_student 0 (Some 30) None "1")
        (Examples.mk_mentor 2 (Some 40) "Dr." "1") 1 ].
Proof. vm_compute. reflexivity. Qed.

(** One student and one mentor on the same campus, capacity 1. *)
Example scenario_same_campus :
  Engine.Same_Campus_Match
    <$> Engine.match_by_age_and_rules Frame.insertion_sort
          [Examples.mk_student 0 (Some 30) None "1"]
          [Examples.mk_mentor 0 (Some 40) "Mr." "1"] 1
  = ["Yes"].
Proof. vm_compute. reflexivity. Qed.

(** A preference of 'Female' and a single mentor of gender 'Male'. *)
Example scenario_gender_miss :
  Engine.match_by_age_and_rules Frame.insertion_sort
    [Examples.mk_student 0 (Some 30) (Some "Female") "1"]
    [Examples.mk_mentor 0 (Some 40) "Mr." "1"] 1
  = [].
Proof. vm_compute. reflexivity. Qed.

(** Two students of ages 20 and 50, one mentor, capacity 1: the student of
    age 50 is served. *)
Example scenario_oldest_first :
  Engine.Student_Index
    <$> Engine.match_by_age_and_rules Frame.insertion_sort
          [Examples.mk_student 0 (Some 20) None "1";
           Examples.mk_student 1 (Some 50) None "1"]
          [Examples.mk_mentor 0 (Some 40) "Ms." "2"] 1
  = [1%nat].
Proof. vm_compute. reflexivity. Qed.

(** Two mentors with the same score, the older one scanned first. *)
Example scenario_tie_keeps_first :
  Engine.Mentor_Index
    <$> Engine.match_by_age_and_rules Frame.insertion_sort
          [Examples.mk_student 0 (Some 20) None "1"]
          [Examples.mk_mentor 0 (Some 35) "Ms." "1";
           Examples.mk_mentor 1 (Some 61) "Mr." "1"] 1
  = [1%nat].
Proof. vm_compute. reflexivity. Qed.

Example unmatched_sample :
  Engine.unmatched_students Examples.students
    (Engine.match_by_age_and_rules Frame.insertion_sort
       Examples.students Examples.mentors 1)
  = [ Examples.mk_student 2 None (Some "Male") "Unknown" ].
Proof. vm_compute. reflexivity. Qed.

(** * The claims *)

(** Closes a decidable statement about given sheets by running its
    decision procedure. *)
Ltac by_evaluation := apply (bool_decide_unpack _); vm_compute; exact I.

(** ** Priority ordering *)

(** C1 (as the code has it). When the library's sort has ordered the rows
    of known age, as every [kind] does, the sorted sheet is a
    rearrangement of the input in descending order of age with the rows
    of unknown age behind all the others, and the rows of unknown age keep
    the order they had in the input. Rows of one and the same known age
    keep their input order when the library's sort kept the ties in
    order; the call does not ask for a stable [kind]. *)
Theorem sort_values_order (argsort : Frame.sorter) (A : Type)
    (age : A -> option Z) (df : list A) :
  Frame.sorted_by argsort age df ->
  Frame.sort_values argsort age df ≡ₚ df
  /\ StronglySorted (Frame.by_age_desc age) (Frame.sort_values argsort age df)
  /\ filter (Frame.has_age age None) (Frame.sort_values argsort age df)
     = filter (Frame.has_age age None) df
  /\ (Frame.ties_kept_by argsort age df ->
      forall a, filter (Frame.has_age age a) (Frame.sort_values argsort age df)
                = filter (Frame.has_age age a) df).
Proof.
  intros Hs. split; [by apply sort_values_Permutation|].
  split; [by apply sort_values_sorted|].
  split; [by apply sort_values_nan_last|].
  intros Hst a. by apply sort_values_stable.
Qed.

Lemma sort_values_order_witness :
  Frame.sorted_by Frame.front_insertion_sort Engine.s_age Examples.students
  /\ Frame.sort_values Frame.front_insertion_sort Engine.s_age Examples.students
     ≡ₚ Examples.students
  /\ StronglySorted (Frame.by_age_desc Engine.s_age)
       (Frame.sort_values Frame.front_insertion_sort Engine.s_age
          Examples.students)
  /\ filter (Frame.has_age Engine.s_age None)
       (Frame.sort_values Frame.front_insertion_sort Engine.s_age
          Examples.students)
     = filter (Frame.has_age Engine.s_age None) Examples.students
  /\ (Frame.ties_kept_by Frame.front_insertion_sort Engine.s_age
        Examples.students ->
      forall a,
        filter (Frame.has_age Engine.s_age a)
          (Frame.sort_values Frame.front_insertion_sort Engine.s_age
             Examples.students)
        = filter (Frame.has_age Engine.s_age a) Examples.students).
Proof.
  assert (Frame.sorted_by Frame.front_insertion_sort Engine.s_age
            Examples.students)
    as Hs by (split; by_evaluation).
  split; [exact Hs|].
  exact (sort_values_order Frame.front_insertion_sort Engine.student
           Engine.s_age Examples.students Hs).
Defined.

(** C1 as stated fails: the call leaves [kind] at its default, of which
    the library promises the order of the keys and no more, so the claim
    would have to hold of every sort that keeps that promise. It does not.
    Take the sheet of four students labelled 0 to 3 with ages 30, 30, 40,
    40, and the sort that inserts front to back: that sort orders every
    input, the sorted sheet is in descending order of age, and the two
    students of age 40 come out as 3, 2 and those of age 30 as 1, 0,
    where the input has them as 2, 3 and 0, 1. (A stable sort gives 2,
    3, 0, 1 on the same sheet: the order of ties is the library's
    choice, not the program's.) *)
Lemma sort_values_ties_reordered :
  Frame.sorts Frame.front_insertion_sort
  /\ Engine.s_index <$> Examples.tied_students = [0; 1; 2; 3]%nat
  /\ Engine.s_age <$> Examples.tied_students
     = [Some 30; Some 30; Some 40; Some 40]
  /\ StronglySorted (Frame.by_age_desc Engine.s_age)
       (Frame.sort_values Frame.front_insertion_sort Engine.s_age
          Examples.tied_students)
  /\ Engine.s_index
       <$> Frame.sort_values Frame.front_insertion_sort Engine.s_age
             Examples.tied_students
     = [3; 2; 1; 0]%nat
  /\ Engine.s_index
       <$> filter (Frame.has_age Engine.s_age (Some 40))
             (Frame.sort_values Frame.front_insertion_sort Engine.s_age
                Examples.tied_students)
     = [3; 2]%nat
  /\ Engine.s_index
       <$> filter (Frame.has_age Engine.s_age (Some 40)) Examples.tied_students
     = [2; 3]%nat
  /\ Engine.s_index
       <$> Frame.sort_values Frame.insertion_sort Engine.s_age
             Examples.tied_students
     = [2; 3; 0; 1]%nat
  /\ filter (Frame.has_age Engine.s_age (Some 40))
       (Frame.sort_values Frame.front_insertion_sort Engine.s_age
          Examples.tied_students)
     <> filter (Frame.has_age Engine.s_age (Some 40)) Examples.tied_students.
Proof.
  split; [exact front_insertion_sort_sorts|].
  split; [reflexivity|]. split; [reflexivity|].
  split; [apply sort_values_sorted, front_insertion_sort_sorts|].
  split; [vm_compute; reflexivity|].
  split; [vm_compute; reflexivity|].
  split; [vm_compute; reflexivity|].
  split; [vm_compute; reflexivity|].
  intros Heq.
  apply (f_equal (fun l => Engine.s_index <$> l)) in Heq.
  revert Heq. vm_compute. discriminate.
Qed.

(** With a stable [kind] the ties would keep their order on every sheet. *)
Lemma sort_values_stable_kind {A} (age : A -> option Z) (df : list A)
    (a : option Z) :
  filter (Frame.has_age age a) (Frame.sort_values Frame.insertion_sort age df)
  = filter (Frame.has_age age a) df.
Proof.
  apply sort_values_stable.
  - apply insertion_sort_sorts.
  - apply insertion_sort_stable.
Qed.

(** ** The engine *)

(** C2. With a capacity of at least 0, no mentor label is referenced by
    more records of the result than the capacity. The ledger reads 0 at
    every label before the first student, ends with each label at the
    number of records that reference it, and one student changes it by
    exactly the records appended for that student (none or one): a count
    goes up by one with its record and never goes down. *)
Theorem capacity_ledger_invariant (argsort : Frame.sorter)
    (students : list Engine.student) (mentors : list Engine.mentor) (max : Z) :
  0 <= max ->
  (forall k, Engine.ledger_get ∅ k = 0)
  /\ (forall k,
         Z.of_nat (length (Engine.matches_of k
           (Engine.match_by_age_and_rules argsort students mentors max))) <= max)
  /\ (forall k,
         Engine.ledger_get (Engine.run argsort students mentors max).1 k
         = Z.of_nat (length (Engine.matches_of k
             (Engine.run argsort students mentors max).2)))
  /\ (forall ms acc s,
         exists new,
           (Engine.assign max ms acc s).2 = acc.2 ++ new
           /\ (length new <= 1)%nat
           /\ forall k,
               Engine.ledger_get (Engine.assign max ms acc s).1 k
               = Engine.ledger_get acc.1 k
                 + Z.of_nat (length (Engine.matches_of k new))).
Proof.
  intros Hmax. destruct (run_spec argsort students mentors max)
    as (Hled & _ & _ & Hcap).
  split; [apply ledger_get_empty|].
  split; [intros k; unfold Engine.match_by_age_and_rules;
          rewrite <- Hled; by apply Hcap|].
  split; [exact Hled|].
  intros ms acc s.
  destruct (assign_cases max ms acc s)
    as [(m & _ & _ & Hrec & Hinc)|(_ & _ & Hrec & Hsame)].
  - exists [Engine.make_match s m (Engine.campus_score s m)].
    split; [done|]. split; [done|]. intros k.
    rewrite Hinc, matches_of_cons. unfold Engine.matches_of. simpl. lia.
  - exists []. rewrite app_nil_r. split; [done|]. split; [simpl; lia|].
    intros k. rewrite Hsame. unfold Engine.matches_of. simpl. lia.
Qed.

Lemma capacity_ledger_invariant_witness :
  0 <= 1
  /\ forall k,
       Z.of_nat (length (Engine.matches_of k
         (Engine.match_by_age_and_rules Frame.insertion_sort
            Examples.students Examples.mentors 1))) <= 1.
Proof.
  assert (0 <= 1) as H by lia.
  split; [exact H|].
  exact (proj1 (proj2 (capacity_ledger_invariant Frame.insertion_sort
                         Examples.students Examples.mentors 1 H))).
Defined.

(** C3. With unique labels, for every record of the result, the student
    and the mentor it names satisfy: a preference of exactly 'Male' goes
    with a mentor of gender exactly 'Male', a preference of exactly
    'Female' with gender exactly 'Female', so a mentor of gender 'Unknown'
    is matched to neither; and for a preference that is unset or anything
    else the gender filter lets every mentor through. *)
Theorem gender_rule_respected (argsort : Frame.sorter)
    (students : list Engine.student) (mentors : list Engine.mentor) (max : Z) :
  Frame.sorted_by argsort Engine.s_age students ->
  Frame.sorted_by argsort Engine.m_age mentors ->
  NoDup (Engine.s_index <$> students) -> NoDup (Engine.m_index <$> mentors) ->
  (forall r s m,
      r ∈ Engine.match_by_age_and_rules argsort students mentors max ->
      s ∈ students -> m ∈ mentors ->
      Engine.s_index s = Engine.Student_Index r ->
      Engine.m_index m = Engine.Mentor_Index r ->
      (Engine.gender_preference s = Some "Male" -> Engine.m_gender m = "Male")
      /\ (Engine.gender_preference s = Some "Female" ->
          Engine.m_gender m = "Female")
      /\ (Engine.m_gender m = "Unknown" ->
          Engine.gender_preference s <> Some "Male"
          /\ Engine.gender_preference s <> Some "Female")
      /\ Engine.Student_Gender_Preference r = Engine.gender_preference s)
  /\ (forall (pref : option string) (g : string),
         pref <> Some "Male" -> pref <> Some "Female" ->
         Engine.gender_miss pref g = false)
  /\ (forall (count : gmap nat Z) s m,
         Engine.gender_preference s <> Some "Male" ->
         Engine.gender_preference s <> Some "Female" ->
         Engine.eligible max count s m
         <-> Engine.ledger_get count (Engine.m_index m) < max).
Proof.
  intros Hss Hsm Hds Hdm. split; [|split].
  - intros r s m Hr Hin_s Hin_m His Him.
    destruct (match_origin argsort students mentors max r s m)
      as [-> [H1 H2]%gender_miss_false]; try done.
    split; [done|]. split; [done|]. split; [|done].
    intros Hu. split; intros Hp.
    + specialize (H1 Hp). rewrite Hu in H1. discriminate.
    + specialize (H2 Hp). rewrite Hu in H2. discriminate.
  - intros pref g H1 H2. apply gender_miss_false. done.
  - intros count s m H1 H2. unfold Engine.eligible.
    rewrite gender_miss_false. split; [by intros [_ ?]|]. done.
Qed.

Lemma gender_rule_respected_witness :
  Frame.sorted_by Frame.insertion_sort Engine.s_age Examples.students
  /\ Frame.sorted_by Frame.insertion_sort Engine.m_age Examples.mentors
  /\ NoDup (Engine.s_index <$> Examples.students)
  /\ NoDup (Engine.m_index <$> Examples.mentors)
  /\ forall r s m,
      r ∈ Engine.match_by_age_and_rules Frame.insertion_sort
            Examples.students Examples.mentors 1 ->
      s ∈ Examples.students -> m ∈ Examples.mentors ->
      Engine.s_index s = Engine.Student_Index r ->
      Engine.m_index m = Engine.Mentor_Index r ->
      (Engine.gender_preference s = Some "Male" -> Engine.m_gender m = "Male")
      /\ (Engine.gender_preference s = Some "Female" ->
          Engine.m_gender m = "Female")
      /\ (Engine.m_gender m = "Unknown" ->
          Engine.gender_preference s <> Some "Male"
          /\ Engine.gender_preference s <> Some "Female")
      /\ Engine.Student_Gender_Preference r = Engine.gender_preference s.
Proof.
  assert (Frame.sorted_by Frame.insertion_sort Engine.s_age Examples.students)
    as Hss by (split; by_evaluation).
  assert (Frame.sorted_by Frame.insertion_sort Engine.m_age Examples.mentors)
    as Hsm by (split; by_evaluation).
  assert (NoDup (Engine.s_index <$> Examples.students)) as Hds by by_evaluation.
  assert (NoDup (Engine.m_index <$> Examples.mentors)) as Hdm by by_evaluation.
  split; [exact Hss|]. split; [exact Hsm|]. split; [exact Hds|].
  split; [exact Hdm|].
  exact (proj1 (gender_rule_respected Frame.insertion_sort Examples.students
                  Examples.mentors 1 Hss Hsm Hds Hdm)).
Defined.

(** C4. When at least one mentor passes both hard filters for a student,
    the mentor selected is the first one, in the order the mentors are
    scanned, that is eligible and whose score no eligible mentor exceeds:
    eligible mentors scanned before it score strictly less, eligible
    mentors scanned after it score at most as much, and its record is the
    one appended. The running best changes at a mentor only when that
    mentor's score is strictly greater than the best so far, so a later
    mentor with an equal score never displaces an earlier one. *)
Theorem first_best_mentor_selected (max : Z) (s : Engine.student)
    (ms : list Engine.mentor)
    (acc : gmap nat Z * list Engine.match_record) :
  (exists m, m ∈ ms /\ Engine.eligible max acc.1 s m) ->
  (exists m,
      Engine.first_best max acc.1 s ms m
      /\ Engine.best_mentor (Engine.scan max s ms acc.1) = Some m
      /\ Engine.highest_score (Engine.scan max s ms acc.1)
         = Engine.campus_score s m
      /\ (Engine.assign max ms acc s).2
         = acc.2 ++ [Engine.make_match s m (Engine.campus_score s m)])
  /\ (forall st m,
         Engine.best_mentor (Engine.scan_step max s st m)
         <> Engine.best_mentor st ->
         Engine.highest_score st < Engine.campus_score s m
         /\ Engine.best_mentor (Engine.scan_step max s st m) = Some m)
  /\ (forall st m,
         Engine.campus_score s m <= Engine.highest_score st ->
         Engine.best_mentor (Engine.scan_step max s st m)
         = Engine.best_mentor st).
Proof.
  intros (m0 & Hin & Hel). split; [|split].
  - destruct (assign_cases max ms acc s)
      as [(m & Hb & Hfb & Hrec & _)|(_ & Hnone & _)].
    + exists m. destruct (scan_spec max s ms acc.1) as [_ Hsp].
      rewrite Hb in Hsp. destruct Hsp as [_ Hh]. done.
    + by destruct (Hnone m0 Hin).
  - intros st m Hne.
    destruct (decide (Engine.eligible max (Engine.count st) s m)) as [He|He].
    + destruct (scan_step_take max s st m He) as [_ Hb].
      case_bool_decide as Hlt; destruct Hb as [Hb _]; [done|].
      by destruct Hne.
    + destruct (scan_step_skip max s st m He) as (Hb & _). by destruct Hne.
  - intros st m Hle.
    destruct (decide (Engine.eligible max (Engine.count st) s m)) as [He|He].
    + destruct (scan_step_take max s st m He) as [_ Hb].
      rewrite bool_decide_eq_false_2 in Hb by lia. by destruct Hb.
    + by destruct (scan_step_skip max s st m He) as (Hb & _).
Qed.

Lemma first_best_mentor_selected_witness :
  (exists m, m ∈ Examples.mentors
             /\ Engine.eligible 1 ∅ (Examples.mk_student 0 (Some 30) None "1") m)
  /\ exists m,
      Engine.first_best 1 ∅ (Examples.mk_student 0 (Some 30) None "1")
        Examples.mentors m
      /\ Engine.best_mentor
           (Engine.scan 1 (Examples.mk_student 0 (Some 30) None "1")
              Examples.mentors ∅) = Some m
      /\ Engine.highest_score
           (Engine.scan 1 (Examples.mk_student 0 (Some 30) None "1")
              Examples.mentors ∅)
         = Engine.campus_score (Examples.mk_student 0 (Some 30) None "1") m
      /\ (Engine.assign 1 Examples.mentors (∅, [])
            (Examples.mk_student 0 (Some 30) None "1")).2
         = [] ++ [Engine.make_match (Examples.mk_student 0 (Some 30) None "1") m
                    (Engine.campus_score
                       (Examples.mk_student 0 (Some 30) None "1") m)].
Proof.
  assert (exists m, m ∈ Examples.mentors
             /\ Engine.eligible 1 ∅ (Examples.mk_student 0 (Some 30) None "1") m)
    as Hex.
  { exists (Examples.mk_mentor 0 (Some 40) "Mr." "1").
    split; [apply list_elem_of_here|]. split; [reflexivity|].
    rewrite ledger_get_empty. lia. }
  split; [exact Hex|].
  exact (proj1 (first_best_mentor_selected 1
                  (Examples.mk_student 0 (Some 30) None "1")
                  Examples.mentors (∅, []) Hex)).
Defined.

(** C5. The score of a student and a mentor is 1 exactly when the
    mentor's campus equals the student's and that campus is not
    'Unknown', and 0 otherwise; and, with unique labels, every record of
    the result is the record of the student and mentor it names, with
    Same_Campus_Match 'Yes' exactly when their score is positive and 'No'
    otherwise. *)
Theorem campus_score_and_flag (argsort : Frame.sorter)
    (students : list Engine.student) (mentors : list Engine.mentor) (max : Z) :
  Frame.sorted_by argsort Engine.s_age students ->
  Frame.sorted_by argsort Engine.m_age mentors ->
  NoDup (Engine.s_index <$> students) -> NoDup (Engine.m_index <$> mentors) ->
  (forall s m,
      (Engine.campus_score s m = 1 <->
       Engine.m_campus m = Engine.s_campus s /\ Engine.s_campus s <> "Unknown")
      /\ (Engine.campus_score s m = 0 <->
          ~ (Engine.m_campus m = Engine.s_campus s
             /\ Engine.s_campus s <> "Unknown")))
  /\ (forall r s m,
         r ∈ Engine.match_by_age_and_rules argsort students mentors max ->
         s ∈ students -> m ∈ mentors ->
         Engine.s_index s = Engine.Student_Index r ->
         Engine.m_index m = Engine.Mentor_Index r ->
         r = Engine.make_match s m (Engine.campus_score s m)
         /\ (Engine.Same_Campus_Match r = "Yes" <-> 0 < Engine.campus_score s m)
         /\ (Engine.Same_Campus_Match r = "No" <->
             ~ 0 < Engine.campus_score s m)).
Proof.
  intros Hss Hsm Hds Hdm. split.
  - intros s m. split; [apply campus_score_one|].
    pose proof (campus_score_one s m) as H1.
    pose proof (campus_score_range s m) as Hr.
    split; [intros H0 Hc; apply H1 in Hc; lia|].
    intros Hn. destruct (decide (Engine.campus_score s m = 1)) as [H|H]; [|lia].
    by apply H1 in H.
  - intros r s m Hr Hin_s Hin_m His Him.
    destruct (match_origin argsort students mentors max r s m) as [-> _];
      try done.
    split; [done|]. simpl. case_bool_decide; split; split; done.
Qed.

Lemma campus_score_and_flag_witness :
  Frame.sorted_by Frame.insertion_sort Engine.s_age Examples.students
  /\ Frame.sorted_by Frame.insertion_sort Engine.m_age Examples.mentors
  /\ NoDup (Engine.s_index <$> Examples.students)
  /\ NoDup (Engine.m_index <$> Examples.mentors)
  /\ forall r s m,
      r ∈ Engine.match_by_age_and_rules Frame.insertion_sort
            Examples.students Examples.mentors 1 ->
      s ∈ Examples.students -> m ∈ Examples.mentors ->
      Engine.s_index s = Engine.Student_Index r ->
      Engine.m_index m = Engine.Mentor_Index r ->
      r = Engine.make_match s m (Engine.campus_score s m)
      /\ (Engine.Same_Campus_Match r = "Yes" <-> 0 < Engine.campus_score s m)
      /\ (Engine.Same_Campus_Match r = "No" <-> ~ 0 < Engine.campus_score s m).
Proof.
  assert (Frame.sorted_by Frame.insertion_sort Engine.s_age Examples.students)
    as Hss by (split; by_evaluation).
  assert (Frame.sorted_by Frame.insertion_sort Engine.m_age Examples.mentors)
    as Hsm by (split; by_evaluation).
  assert (NoDup (Engine.s_index <$> Examples.students)) as Hds by by_evaluation.
  assert (NoDup (Engine.m_index <$> Examples.mentors)) as Hdm by by_evaluation.
  split; [exact Hss|]. split; [exact Hsm|]. split; [exact Hds|].
  split; [exact Hdm|].
  exact (proj2 (campus_score_and_flag Frame.insertion_sort Examples.students
                  Examples.mentors 1 Hss Hsm Hds Hdm)).
Defined.

(** C6. With unique student labels, no label occurs in two records of the
    result; the labels of the records together with the labels of the
    unmatched students are exactly the labels of the input sheet, each
    once, and no unmatched student's label occurs in a record; and the
    unmatched students are the input sheet with the matched rows left
    out, in the order of the input sheet. *)
Theorem matched_unmatched_partition (argsort : Frame.sorter)
    (students : list Engine.student) (mentors : list Engine.mentor) (max : Z) :
  Frame.sorted_by argsort Engine.s_age students ->
  NoDup (Engine.s_index <$> students) ->
  let matches := Engine.match_by_age_and_rules argsort students mentors max in
  let unmatched := Engine.unmatched_students students matches in
  NoDup (Engine.Student_Index <$> matches)
  /\ (Engine.Student_Index <$> matches) ++ (Engine.s_index <$> unmatched)
     ≡ₚ Engine.s_index <$> students
  /\ (forall s, s ∈ unmatched ->
                Engine.s_index s ∉ Engine.Student_Index <$> matches)
  /\ unmatched `sublist_of` students
  /\ unmatched
     = filter (fun s => Engine.s_index s ∉ Engine.Student_Index <$> matches)
              students.
Proof.
  intros Hs Hd matches unmatched.
  assert (unmatched
          = filter (fun s => Engine.s_index s ∉ Engine.Student_Index <$> matches)
                   students) as Hun by apply unmatched_students_filter.
  assert (NoDup (Engine.Student_Index <$> matches)) as Hnd
    by (by apply matched_indices_NoDup).
  assert (unmatched `sublist_of` students) as Hsub
    by (rewrite Hun; apply sublist_filter).
  assert (forall s, s ∈ unmatched ->
                    Engine.s_index s ∉ Engine.Student_Index <$> matches) as Hdis.
  { intros s. rewrite Hun. by intros [? _]%list_elem_of_filter. }
  split; [done|]. split; [|done].
  apply NoDup_Permutation; [|done|].
  - apply NoDup_app. split; [done|]. split.
    + intros i Hi (s & -> & Hin)%list_elem_of_fmap. by apply (Hdis s).
    + eapply sublist_NoDup; [exact Hd|]. by apply fmap_sublist.
  - intros i. rewrite elem_of_app. split.
    + intros [Hi|(s & -> & Hin)%list_elem_of_fmap].
      * by eapply matched_indices_known.
      * apply list_elem_of_fmap_2. by eapply elem_of_sublist.
    + intros (s & -> & Hin)%list_elem_of_fmap.
      destruct (decide (Engine.s_index s ∈ Engine.Student_Index <$> matches))
        as [Hm|Hm]; [by left|right].
      apply list_elem_of_fmap_2. rewrite Hun. by apply list_elem_of_filter.
Qed.

Lemma matched_unmatched_partition_witness :
  Frame.sorted_by Frame.insertion_sort Engine.s_age Examples.students
  /\ NoDup (Engine.s_index <$> Examples.students)
  /\ NoDup (Engine.Student_Index
              <$> Engine.match_by_age_and_rules Frame.insertion_sort
                    Examples.students Examples.mentors 1)
  /\ (Engine.Student_Index
        <$> Engine.match_by_age_and_rules Frame.insertion_sort
              Examples.students Examples.mentors 1)
     ++ (Engine.s_index
           <$> Engine.unmatched_students Examples.students
                 (Engine.match_by_age_and_rules Frame.insertion_sort
                    Examples.students Examples.mentors 1))
     ≡ₚ Engine.s_index <$> Examples.students.
Proof.
  assert (Frame.sorted_by Frame.insertion_sort Engine.s_age Examples.students)
    as Hss by (split; by_evaluation).
  assert (NoDup (Engine.s_index <$> Examples.students)) as Hds by by_evaluation.
  split; [exact Hss|]. split; [exact Hds|].
  pose proof (matched_unmatched_partition Frame.insertion_sort
                Examples.students Examples.mentors 1 Hss Hds) as H.
  split; [exact (proj1 H)|exact (proj1 (proj2 H))].
Defined.

(** C7. The loop is a total function of its input: every student yields a
    next ledger and list of matches. When every mentor fails a hard
    filter for a student (the gender filter or the capacity filter, so in
    particular when all mentors are at capacity), that student adds no
    record, every count of the ledger reads as before, and the loop goes
    on with the next student: the records of the rest are those the loop
    makes without that student. *)
Theorem no_eligible_mentor_skips (max : Z) (ms : list Engine.mentor)
    (s : Engine.student) (rest : list Engine.student)
    (acc : gmap nat Z * list Engine.match_record) :
  (forall m, m ∈ ms ->
             Engine.gender_miss (Engine.gender_preference s) (Engine.m_gender m)
             = true
             \/ max <= Engine.ledger_get acc.1 (Engine.m_index m)) ->
  (Engine.assign max ms acc s).2 = acc.2
  /\ Engine.same_counts (Engine.assign max ms acc s).1 acc.1
  /\ Engine.match_loop max (s :: rest) ms acc
     = Engine.match_loop max rest ms (Engine.assign max ms acc s)
  /\ (Engine.match_loop max (s :: rest) ms acc).2
     = (Engine.match_loop max rest ms acc).2
  /\ Engine.same_counts (Engine.match_loop max (s :: rest) ms acc).1
                        (Engine.match_loop max rest ms acc).1.
Proof.
  intros Hno. destruct (assign_skip max ms acc s Hno) as [Hrec Hsame].
  split; [done|]. split; [done|]. split; [done|].
  rewrite match_loop_cons.
  destruct (Engine.assign max ms acc s) as [c' l'], acc as [c l].
  simpl in *. subst l'. split; by apply match_loop_same_counts.
Qed.

Lemma no_eligible_mentor_skips_witness :
  (forall m, m ∈ Examples.mentors ->
             Engine.gender_miss
               (Engine.gender_preference
                  (Examples.mk_student 2 None (Some "Male") "Unknown"))
               (Engine.m_gender m) = true
             \/ 0 <= Engine.ledger_get (∅, @nil Engine.match_record).1
                       (Engine.m_index m))
  /\ (Engine.assign 0 Examples.mentors (∅, [])
        (Examples.mk_student 2 None (Some "Male") "Unknown")).2 = [].
Proof.
  assert (forall m, m ∈ Examples.mentors ->
             Engine.gender_miss
               (Engine.gender_preference
                  (Examples.mk_student 2 None (Some "Male") "Unknown"))
               (Engine.m_gender m) = true
             \/ 0 <= Engine.ledger_get (∅, @nil Engine.match_record).1
                       (Engine.m_index m)) as Hno.
  { intros m _. right. simpl. rewrite ledger_get_empty. lia. }
  split; [exact Hno|].
  exact (proj1 (no_eligible_mentor_skips 0 Examples.mentors
                  (Examples.mk_student 2 None (Some "Male") "Unknown")
                  [] (∅, []) Hno)).
Defined.

(** C8. With a capacity of 0 the result has no record, whatever the
    students and the mentors are. *)
Theorem zero_capacity_no_matches (argsort : Frame.sorter)
    (students : list Engine.student) (mentors : list Engine.mentor) :
  Engine.match_by_age_and_rules argsort students mentors 0 = [].
Proof.
  unfold Engine.match_by_age_and_rules, Engine.run.
  generalize (Frame.sort_values argsort Engine.s_age students).
  generalize (Frame.sort_values argsort Engine.m_age mentors).
  intros ms ss.
  assert (forall acc : gmap nat Z * list Engine.match_record,
             (forall k, 0 <= Engine.ledger_get acc.1 k) ->
             (Engine.match_loop 0 ss ms acc).2 = acc.2) as H.
  { induction ss as [|s ss IH]; intros acc Hacc; [done|].
    rewrite match_loop_cons.
    destruct (assign_skip 0 ms acc s) as (Hrec & Hsame).
    { intros m _. right. apply Hacc. }
    rewrite IH, Hrec; [done|]. intros k. rewrite Hsame. apply Hacc. }
  rewrite H; [done|]. intros k. simpl. by rewrite ledger_get_empty.
Qed.

(** ** Preprocessing *)

(** C9. The title-to-gender mapping is the literal rule: a title that is
    not a string gives 'Unknown'; for a string, with [clean] its
    lower-cased and trimmed form, the result is 'Male' when 'mr' occurs in
    [clean], else 'Female' when 'ms' occurs in it, else 'Unknown'. Nothing
    else is looked at: 'Mrs' falls under 'mr' and 'Miss' under neither. *)
Theorem map_title_to_gender_literal :
  (forall t : string,
      let clean := Text.strip (Text.lower t) in
      (Text.occurs_in "mr" clean ->
       Preprocess.map_title_to_gender (CStr t) = "Male")
      /\ (~ Text.occurs_in "mr" clean -> Text.occurs_in "ms" clean ->
          Preprocess.map_title_to_gender (CStr t) = "Female")
      /\ (~ Text.occurs_in "mr" clean -> ~ Text.occurs_in "ms" clean ->
          Preprocess.map_title_to_gender (CStr t) = "Unknown"))
  /\ (forall n, Preprocess.map_title_to_gender (CInt n) = "Unknown")
  /\ Preprocess.map_title_to_gender CNaN = "Unknown"
  /\ Preprocess.map_title_to_gender (CStr "Mrs") = "Male"
  /\ Preprocess.map_title_to_gender (CStr "Miss") = "Unknown".
Proof.
  split; [|by repeat split].
  intros t clean. unfold Preprocess.map_title_to_gender. fold clean.
  repeat split.
  - intros H%contains_spec. by rewrite H.
  - intros H1%contains_false H2%contains_spec. by rewrite H1, H2.
  - intros H1%contains_false H2%contains_false. by rewrite H1, H2.
Qed.

Lemma map_title_to_gender_literal_witness :
  Text.occurs_in "ms" (Text.strip (Text.lower " Ms. "))
  /\ Preprocess.map_title_to_gender (CStr " Ms. ") = "Female".
Proof.
  assert (Text.occurs_in "ms" (Text.strip (Text.lower " Ms. "))) as Hms.
  { apply contains_spec. reflexivity. }
  split; [exact Hms|].
  apply (proj1 (proj2 (proj1 map_title_to_gender_literal " Ms. "))); [|exact Hms].
  apply contains_false. reflexivity.
Defined.



(** * Further properties of the code *)

(** ** Column names and padded cells *)
Section StripFacts.
Import Text Prepare.

Lemma to_lower_idempotent (c : ascii) : to_lower (to_lower c) = to_lower c.
Proof. destruct c as [[] [] [] [] [] [] [] []]; reflexivity. Qed.

Lemma is_space_to_lower (c : ascii) : is_space (to_lower c) = is_space c.
Proof. destruct c as [[] [] [] [] [] [] [] []]; reflexivity. Qed.

Lemma is_upper_to_lower (c : ascii) : is_upper (to_lower c) = false.
Proof. destruct c as [[] [] [] [] [] [] [] []]; reflexivity. Qed.

Lemma lower_idempotent (s : string) : lower (lower s) = lower s.
Proof. induction s as [|c s IH]; simpl; [done|]. by rewrite to_lower_idempotent, IH. Qed.

Lemma lower_app (s t : string) : lower (s +:+ t) = lower s +:+ lower t.
Proof. induction s as [|c s IH]; simpl; [done|]. by rewrite IH. Qed.

Lemma all_space_lower (s : string) : all_space s -> all_space (lower s).
Proof.
  unfold all_space. induction s as [|c s IH]; simpl; [done|].
  rewrite is_space_to_lower. intros [-> ?]%andb_true_iff. simpl. auto.
Qed.

Lemma lower_lstrip (s : string) : lower (lstrip s) = lstrip (lower s).
Proof.
  induction s as [|c s IH]; simpl; [done|]. rewrite is_space_to_lower.
  destruct (is_space c); [done|]. done.
Qed.

Lemma lower_rstrip (s : string) : lower (rstrip s) = rstrip (lower s).
Proof.
  induction s as [|c s IH]; simpl; [done|]. rewrite <- IH, is_space_to_lower.
  destruct (rstrip s) as [|d r]; simpl; [|done].
  by destruct (is_space c).
Qed.

Lemma lower_strip (s : string) : lower (strip s) = strip (lower s).
Proof. unfold strip. by rewrite lower_rstrip, lower_lstrip. Qed.

Lemma lstrip_no_lead (s : string) : no_lead (lstrip s).
Proof.
  induction s as [|c s IH]; simpl; [done|].
  destruct (is_space c) eqn:E; [done|]. simpl. done.
Qed.

Lemma lstrip_id (s : string) : no_lead s -> lstrip s = s.
Proof. destruct s as [|c s]; simpl; [done|]. by intros ->. Qed.

Lemma rstrip_no_lead (s : string) : no_lead s -> no_lead (rstrip s).
Proof.
  destruct s as [|c s]; simpl; [done|]. intros Hc.
  destruct (rstrip s); simpl; [|done]. by rewrite Hc.
Qed.

Lemma rstrip_idempotent (s : string) : rstrip (rstrip s) = rstrip s.
Proof.
  induction s as [|c s IH]; simpl; [done|].
  destruct (rstrip s) as [|d r] eqn:E.
  - destruct (is_space c) eqn:Ec; simpl; [done|]. by rewrite Ec.
  - change (rstrip (String c (String d r)))
      with (match rstrip (String d r) with
            | EmptyString => if is_space c then EmptyString
                             else String c EmptyString
            | r' => String c r'
            end).
    by rewrite IH.
Qed.

Lemma strip_idempotent (s : string) : strip (strip s) = strip s.
Proof.
  unfold strip. rewrite (lstrip_id (rstrip (lstrip s))).
  - apply rstrip_idempotent.
  - apply rstrip_no_lead, lstrip_no_lead.
Qed.

Lemma lstrip_all_space (w : string) : all_space w -> lstrip w = EmptyString.
Proof.
  unfold all_space. induction w as [|c w IH]; simpl; [done|].
  intros [-> ?]%andb_true_iff. auto.
Qed.

Lemma rstrip_all_space (w : string) : all_space w -> rstrip w = EmptyString.
Proof.
  unfold all_space. induction w as [|c w IH]; simpl; [done|].
  intros [-> H]%andb_true_iff. by rewrite IH.
Qed.

Lemma lstrip_app_l (w s : string) : all_space w -> lstrip (w +:+ s) = lstrip s.
Proof.
  unfold all_space. induction w as [|c w IH]; simpl; [done|].
  intros [-> H]%andb_true_iff. auto.
Qed.

Lemma rstrip_app_r (s w : string) : all_space w -> rstrip (s +:+ w) = rstrip s.
Proof.
  intros Hw. induction s as [|c s IH]; simpl; [by apply rstrip_all_space|].
  by rewrite IH.
Qed.

Lemma strip_app_r (s w : string) : all_space w -> strip (s +:+ w) = strip s.
Proof.
  intros Hw. unfold strip. induction s as [|c s IH]; simpl.
  - by rewrite lstrip_all_space.
  - destruct (is_space c); [done|].
    change (String c (s +:+ w)) with (String c s +:+ w).
    by apply rstrip_app_r.
Qed.

Lemma strip_padding (w1 s w2 : string) :
  all_space w1 -> all_space w2 -> strip (w1 +:+ s +:+ w2) = strip s.
Proof.
  intros H1 H2. rewrite <- (strip_app_r s w2 H2). unfold strip.
  by rewrite lstrip_app_l.
Qed.

End StripFacts.

Section AsciiFacts.
Import Text Prepare.

Lemma to_lower_is_ascii (c : ascii) :
  is_ascii_char (to_lower c) = is_ascii_char c.
Proof. destruct c as [[] [] [] [] [] [] [] []]; reflexivity. Qed.

Lemma is_space_is_ascii (c : ascii) :
  is_space c = true -> is_ascii_char c = true.
Proof. destruct c as [[] [] [] [] [] [] [] []]; done. Qed.

Lemma lower_is_ascii (s : string) : is_ascii (lower s) = is_ascii s.
Proof.
  unfold is_ascii. induction s as [|c s IH]; simpl; [done|].
  by rewrite to_lower_is_ascii, IH.
Qed.

Lemma is_ascii_app (s t : string) :
  is_ascii (s +:+ t) = is_ascii s && is_ascii t.
Proof.
  unfold is_ascii. induction s as [|c s IH]; simpl; [done|].
  by rewrite IH, andb_assoc.
Qed.

Lemma all_space_is_ascii (w : string) : all_space w -> is_ascii w = true.
Proof.
  unfold all_space, is_ascii. induction w as [|c w IH]; simpl; [done|].
  intros [Hc Hw]%andb_true_iff. by rewrite is_space_is_ascii, IH.
Qed.

Lemma lstrip_is_ascii (s : string) :
  is_ascii s = true -> is_ascii (lstrip s) = true.
Proof.
  unfold is_ascii. induction s as [|c s IH]; simpl; [done|].
  intros [Hc Hs]%andb_true_iff. destruct (is_space c); [by apply IH|].
  simpl. by rewrite Hc, Hs.
Qed.

Lemma rstrip_is_ascii (s : string) :
  is_ascii s = true -> is_ascii (rstrip s) = true.
Proof.
  unfold is_ascii. induction s as [|c s IH]; simpl; [done|].
  intros [Hc Hs]%andb_true_iff. specialize (IH Hs).
  destruct (rstrip s) as [|d r].
  - destruct (is_space c); simpl; [done|]. by rewrite Hc.
  - change (all_chars is_ascii_char (String c (String d r)))
      with (is_ascii_char c && all_chars is_ascii_char (String d r)).
    by rewrite Hc, IH.
Qed.

Lemma strip_is_ascii (s : string) :
  is_ascii s = true -> is_ascii (strip s) = true.
Proof. intros H. by apply rstrip_is_ascii, lstrip_is_ascii. Qed.

End AsciiFacts.

(** Dropping leading characters of a set in which no character's bytes
    begin another's. *)
Section DropFacts.
Import Utf8.
Context (pats : list (list ascii)).
Context (Hne : Forall (fun p => p <> []) pats).
Context (Hfree : Forall (fun p => Forall (fun q => p `prefix_of` q -> p = q) pats)
                   pats).
Implicit Types (l p : list ascii).

Lemma leading_Some l p :
  leading pats l = Some p -> p ∈ pats /\ p `prefix_of` l.
Proof.
  unfold leading. intros [Hin Hp]%find_some.
  split; [by apply list_elem_of_In|]. by apply bool_decide_eq_true in Hp.
Qed.

Lemma leading_None l p :
  leading pats l = None -> p ∈ pats -> ~ p `prefix_of` l.
Proof.
  unfold leading. intros Hnone Hin Hp.
  pose proof (find_none _ _ Hnone p (proj1 (list_elem_of_In _ _) Hin)) as H.
  simpl in H. apply bool_decide_eq_false in H. done.
Qed.

Lemma pats_nonempty p : p ∈ pats -> p <> [].
Proof. intros Hin. rewrite Forall_forall in Hne. by apply Hne. Qed.

Lemma leading_nil : leading pats [] = None.
Proof.
  destruct (leading pats []) as [p|] eqn:E; [|done].
  apply leading_Some in E as [Hin Hp%prefix_nil_inv].
  by apply pats_nonempty in Hin.
Qed.

Lemma leading_app p l : p ∈ pats -> leading pats (p ++ l) = Some p.
Proof.
  intros Hin. destruct (leading pats (p ++ l)) as [q|] eqn:E.
  - apply leading_Some in E as [Hq Hpre]. f_equal.
    rewrite Forall_forall in Hfree.
    pose proof (Hfree q Hq) as Hq'. pose proof (Hfree p Hin) as Hp'.
    rewrite Forall_forall in Hq'. rewrite Forall_forall in Hp'.
    destruct (prefix_weak_total q p (p ++ l) Hpre) as [H|H].
    + by apply prefix_app_r.
    + by apply Hq'.
    + symmetry. by apply Hp'.
  - exfalso. eapply leading_None; [exact E|exact Hin|]. by apply prefix_app_r.
Qed.

Lemma drop_leading_None rounds l :
  leading pats l = None -> drop_leading pats rounds l = l.
Proof. intros H. destruct rounds; simpl; [done|]. by rewrite H. Qed.

Lemma drop_leading_rounds (n1 n2 : nat) l :
  (length l <= n1)%nat -> (length l <= n2)%nat ->
  drop_leading pats n1 l = drop_leading pats n2 l.
Proof.
  revert n2 l. induction n1 as [|n1 IH]; intros n2 l H1 H2.
  - destruct l; [|simpl in H1; lia].
    by rewrite (drop_leading_None n2) by apply leading_nil.
  - destruct n2 as [|n2].
    + destruct l; [|simpl in H2; lia].
      by rewrite (drop_leading_None (S n1)) by apply leading_nil.
    + simpl. destruct (leading pats l) as [p|] eqn:E; [|done].
      apply leading_Some in E as [Hin Hp].
      pose proof (pats_nonempty p Hin) as Hp0.
      pose proof (prefix_length _ _ Hp) as Hlen.
      assert (0 < length p)%nat by (destruct p; [done|simpl; lia]).
      apply IH; rewrite length_drop; lia.
Qed.

Lemma drop_leading_chars (chars : list (list ascii)) l (n : nat) :
  Forall (fun c => c ∈ pats) chars ->
  (length (concat chars ++ l) <= n)%nat ->
  drop_leading pats n (concat chars ++ l) = drop_leading pats (length l) l.
Proof.
  intros Hchars. revert n. induction Hchars as [|p chars Hp _ IH]; intros n Hn.
  - simpl in *. by apply drop_leading_rounds.
  - simpl in *. rewrite <- app_assoc in *.
    pose proof (pats_nonempty p Hp) as Hp0.
    assert (0 < length p)%nat by (destruct p; [done|simpl; lia]).
    rewrite length_app in Hn.
    destruct n as [|n]; [lia|]. simpl.
    rewrite leading_app, drop_app_length by done.
    apply IH. lia.
Qed.

Lemma drop_leading_split (n : nat) l :
  (length l <= n)%nat ->
  exists chars,
    Forall (fun c => c ∈ pats) chars
    /\ l = concat chars ++ drop_leading pats n l
    /\ leading pats (drop_leading pats n l) = None.
Proof.
  revert l. induction n as [|n IH]; intros l Hn.
  - destruct l; [|simpl in Hn; lia]. exists []. simpl.
    split; [done|]. split; [done|]. apply leading_nil.
  - simpl. destruct (leading pats l) as [p|] eqn:E.
    + apply leading_Some in E as [Hin [k ->]].
      pose proof (pats_nonempty p Hin) as Hp0.
      assert (0 < length p)%nat by (destruct p; [done|simpl; lia]).
      rewrite drop_app_length. rewrite length_app in Hn.
      destruct (IH k) as (chars & Hchars & Hk & Hnone); [lia|].
      exists (p :: chars). split; [by constructor|]. split; [|done].
      simpl. rewrite <- app_assoc. by rewrite <- Hk.
    + exists []. done.
Qed.

(** A string that begins with no character of the set still begins with
    none when characters of the set are appended, if every member of the
    set is the bytes of one character. *)
Lemma leading_None_app l (chars : list (list ascii)) :
  Forall (fun p => one_char p = true) pats ->
  leading pats l = None -> l <> [] ->
  Forall (fun c => c ∈ pats) chars ->
  leading pats (l ++ concat chars) = None.
Proof.
  intros Hshape Hnone Hl Hchars. rewrite Forall_forall in Hshape.
  destruct (leading pats (l ++ concat chars)) as [q|] eqn:E; [|done].
  exfalso. apply leading_Some in E as [Hq [k Hk]].
  apply app_eq_inv in Hk as [(b & -> & _)|(b & -> & Hb)].
  - eapply leading_None; [exact Hnone|exact Hq|]. by apply prefix_app_r.
  - destruct b as [|x b].
    + rewrite app_nil_r in Hq. eapply leading_None; [exact Hnone|exact Hq|done].
    + pose proof (Hshape _ Hq) as Hone.
      destruct l as [|c l]; [done|]. simpl in Hone.
      apply andb_true_iff in Hone as [_ Hcont].
      rewrite forallb_app in Hcont. apply andb_true_iff in Hcont as [_ Hcont].
      simpl in Hcont. apply andb_true_iff in Hcont as [Hx _].
      destruct Hchars as [|p chars Hp Hchars]; [done|].
      pose proof (Hshape _ Hp) as Hp1.
      destruct p as [|y p]; [done|]. simpl in Hb. injection Hb as <- _.
      simpl in Hp1. by rewrite Hx in Hp1.
Qed.

End DropFacts.

Section Utf8Facts.
Import Utf8.

Lemma spaces_nonempty : Forall (fun p : list ascii => p <> []) spaces.
Proof. apply (bool_decide_unpack _). vm_compute. exact I. Qed.

Lemma spaces_free :
  Forall (fun p => Forall (fun q => p `prefix_of` q -> p = q) spaces) spaces.
Proof. apply (bool_decide_unpack _). vm_compute. exact I. Qed.

Lemma spaces_one_char : Forall (fun p => one_char p = true) spaces.
Proof. apply (bool_decide_unpack _). vm_compute. exact I. Qed.

Lemma rev_spaces_nonempty :
  Forall (fun p : list ascii => p <> []) (reverse <$> spaces).
Proof. apply (bool_decide_unpack _). vm_compute. exact I. Qed.

Lemma rev_spaces_free :
  Forall (fun p => Forall (fun q => p `prefix_of` q -> p = q)
                     (reverse <$> spaces))
         (reverse <$> spaces).
Proof. apply (bool_decide_unpack _). vm_compute. exact I. Qed.

Lemma list_ascii_of_string_app (s t : string) :
  list_ascii_of_string (s +:+ t)
  = list_ascii_of_string s ++ list_ascii_of_string t.
Proof. induction s as [|c s IH]; simpl; [done|]. by rewrite IH. Qed.

Lemma reverse_concat_chars (chars : list (list ascii)) :
  reverse (concat chars) = concat (reverse (reverse <$> chars)).
Proof.
  induction chars as [|p chars IH]; simpl; [done|].
  rewrite reverse_app, IH, reverse_cons, concat_app. simpl.
  by rewrite app_nil_r.
Qed.

Lemma lstrip_chars (chars : list (list ascii)) (l : list ascii) :
  Forall (fun c => c ∈ spaces) chars -> lstrip (concat chars ++ l) = lstrip l.
Proof.
  intros H. unfold lstrip.
  by apply drop_leading_chars;
    [apply spaces_nonempty|apply spaces_free|exact H|].
Qed.

Lemma rstrip_chars (chars : list (list ascii)) (l : list ascii) :
  Forall (fun c => c ∈ spaces) chars -> rstrip (l ++ concat chars) = rstrip l.
Proof.
  intros H. unfold rstrip. f_equal.
  rewrite reverse_app, reverse_concat_chars.
  rewrite (drop_leading_chars _ rev_spaces_nonempty rev_spaces_free
             (reverse (reverse <$> chars)) (reverse l)
             (length (l ++ concat chars))).
  - by rewrite length_reverse.
  - apply Forall_reverse, Forall_fmap. eapply Forall_impl; [exact H|].
    intros c Hc. exact (list_elem_of_fmap_2 reverse spaces c Hc).
  - by rewrite <- reverse_concat_chars, <- reverse_app, length_reverse.
Qed.

(** Whitespace characters around a string do not change what [strip]
    gives. *)
Lemma strip_spaces (w1 s w2 : string) :
  all_space w1 -> all_space w2 -> strip (w1 +:+ s +:+ w2) = strip s.
Proof.
  intros (cs1 & H1 & E1) (cs2 & H2 & E2). unfold strip. f_equal.
  rewrite !list_ascii_of_string_app, E1, E2.
  set (l := list_ascii_of_string s).
  rewrite lstrip_chars by done.
  destruct (drop_leading_split spaces spaces_nonempty (length l) l)
    as (cs & Hcs & Hl & Hnone); [done|].
  fold (lstrip l) in Hl, Hnone.
  rewrite Hl at 1. rewrite <- app_assoc, lstrip_chars by done.
  destruct (lstrip l) as [|c l'] eqn:El.
  - simpl. rewrite <- (app_nil_r (concat cs2)), lstrip_chars by done. done.
  - unfold lstrip at 1.
    rewrite (drop_leading_None spaces) by
      (by apply leading_None_app; [apply spaces_one_char|..]).
    by apply rstrip_chars.
Qed.

End Utf8Facts.

(** X1. A normalised column name is its own normal form: the name is
    lower-cased and trimmed already, so normalising twice gives what
    normalising once gives. (Names written in ASCII; for other names the
    case tables of Unicode are not modelled.) *)
Theorem normalize_column_idempotent (name normal : string) :
  Prepare.normalize_column name = Some normal ->
  Prepare.normalize_column normal = Some normal.
Proof.
  unfold Prepare.normalize_column.
  destruct (Text.is_ascii name) eqn:E; [|done]. intros [= <-].
  rewrite strip_is_ascii by (by rewrite lower_is_ascii). f_equal.
  by rewrite lower_strip, lower_idempotent, strip_idempotent.
Qed.

Lemma normalize_column_idempotent_witness :
  Prepare.normalize_column " Gender_Preference " = Some "gender_preference"
  /\ Prepare.normalize_column "gender_preference" = Some "gender_preference".
Proof.
  assert (Prepare.normalize_column " Gender_Preference "
          = Some "gender_preference") as H by reflexivity.
  split; [exact H|].
  exact (normalize_column_idempotent " Gender_Preference "
           "gender_preference" H).
Defined.

(** X2. ASCII whitespace around a column name and the case of its ASCII
    letters do not matter: a name padded with such whitespace on either
    side, in any mix of upper and lower case, has the normal form of its
    lower-cased core. *)
Theorem normalize_column_padding (w1 name w2 : string) :
  Prepare.all_space w1 -> Prepare.all_space w2 ->
  Prepare.normalize_column (w1 +:+ name +:+ w2)
  = Prepare.normalize_column name
  /\ Prepare.normalize_column (w1 +:+ name +:+ w2)
     = Prepare.normalize_column (Text.lower name).
Proof.
  intros H1 H2. unfold Prepare.normalize_column.
  rewrite !is_ascii_app, lower_is_ascii.
  rewrite (all_space_is_ascii w1), (all_space_is_ascii w2), andb_true_r by done.
  simpl. destruct (Text.is_ascii name); [|done].
  rewrite !lower_app, lower_idempotent.
  rewrite strip_padding by (by apply all_space_lower). done.
Qed.

Lemma normalize_column_padding_witness :
  Prepare.all_space "  " /\ Prepare.all_space " "
  /\ Prepare.normalize_column ("  " +:+ "Mr./Ms." +:+ " ")
     = Prepare.normalize_column "Mr./Ms.".
Proof.
  assert (Prepare.all_space "  ") as H1 by reflexivity.
  assert (Prepare.all_space " ") as H2 by reflexivity.
  split; [exact H1|]. split; [exact H2|].
  exact (proj1 (normalize_column_padding "  " "Mr./Ms." " " H1 H2)).
Defined.

(** X3. Whitespace around a gender preference, be it blanks, tabs or the
    spaces beyond ASCII such as the no-break space, is dropped before the
    engine sees it, so a padded 'Male' or 'Female' binds exactly as the
    bare word does; a cell that is not a string gives no preference and
    lets every mentor through the gender filter. *)
Theorem gender_preference_padding (w1 w2 : string) :
  Utf8.all_space w1 -> Utf8.all_space w2 ->
  (forall p, Prepare.clean_gender_preference (CStr (w1 +:+ p +:+ w2))
             = Prepare.clean_gender_preference (CStr p))
  /\ (forall g,
         Engine.gender_miss
           (Prepare.clean_gender_preference (CStr (w1 +:+ "Male" +:+ w2))) g
         = negb (bool_decide (g = "Male")))
  /\ (forall g,
         Engine.gender_miss
           (Prepare.clean_gender_preference (CStr (w1 +:+ "Female" +:+ w2))) g
         = negb (bool_decide (g = "Female")))
  /\ (forall n g,
         Engine.gender_miss (Prepare.clean_gender_preference (CInt n)) g = false)
  /\ (forall g, Engine.gender_miss (Prepare.clean_gender_preference CNaN) g = false).
Proof.
  intros H1 H2.
  assert (forall p, Prepare.clean_gender_preference (CStr (w1 +:+ p +:+ w2))
                    = Prepare.clean_gender_preference (CStr p)) as Hp.
  { intros p. simpl. by rewrite strip_spaces. }
  split; [exact Hp|]. split; [|split; [|by split]].
  - intros g. rewrite Hp. unfold Engine.gender_miss.
    change (Prepare.clean_gender_preference (CStr "Male")) with (Some "Male").
    by destruct (bool_decide (g = "Male")).
  - intros g. rewrite Hp. unfold Engine.gender_miss.
    change (Prepare.clean_gender_preference (CStr "Female"))
      with (Some "Female").
    by destruct (bool_decide (g = "Female")).
Qed.

Lemma gender_preference_padding_witness :
  Utf8.all_space (" " +:+ Utf8.nbsp) /\ Utf8.all_space (Utf8.em_space +:+ "  ")
  /\ Prepare.clean_gender_preference
       (CStr ((" " +:+ Utf8.nbsp) +:+ "Female" +:+ (Utf8.em_space +:+ "  ")))
     = Prepare.clean_gender_preference (CStr "Female").
Proof.
  assert (Utf8.all_space (" " +:+ Utf8.nbsp)) as H1.
  { exists [ [ascii_of_nat 32]; [ascii_of_nat 194; ascii_of_nat 160] ].
    split; [|reflexivity]. apply (bool_decide_unpack _). vm_compute. exact I. }
  assert (Utf8.all_space (Utf8.em_space +:+ "  ")) as H2.
  { exists [ [ascii_of_nat 226; ascii_of_nat 128; ascii_of_nat 131];
             [ascii_of_nat 32]; [ascii_of_nat 32] ].
    split; [|reflexivity]. apply (bool_decide_unpack _). vm_compute. exact I. }
  split; [exact H1|]. split; [exact H2|].
  exact (proj1 (gender_preference_padding _ _ H1 H2) "Female").
Defined.

(** ** Faculty to campus *)
Section CampusFacts.
Import Text Prepare.

Lemma lower_no_upper (s : string) :
  all_chars (fun c => negb (is_upper c)) (lower s) = true.
Proof.
  induction s as [|c s IH]; simpl; [done|]. by rewrite is_upper_to_lower, IH.
Qed.

Lemma contains_upper_head (a : ascii) (p s : string) :
  is_upper a = true ->
  all_chars (fun c => negb (is_upper c)) s = true ->
  contains (String a p) s = false.
Proof.
  intros Ha. induction s as [|b s IH]; simpl; [done|].
  intros [Hb Hs]%andb_true_iff. rewrite IH by done.
  rewrite bool_decide_eq_false_2; [done|].
  intros ->. by rewrite Ha in Hb.
Qed.

Lemma campus_keys_in (f : string) :
  (existsb (fun key => contains key f) campus_1_keys = true
   <-> occurs_in "Business" f \/ occurs_in "Medicine" f)
  /\ (existsb (fun key => contains key f) campus_2_keys = true
      <-> occurs_in "Law" f).
Proof.
  unfold campus_1_keys, campus_2_keys. simpl.
  rewrite !orb_false_r, orb_true_iff, !contains_spec. done.
Qed.

End CampusFacts.

(** X4. The campus of a faculty name: '1' exactly when 'Business' or
    'Medicine' occurs in it, with the capitals as written; '2' exactly
    when neither does and 'Law' occurs; 'Unknown' otherwise and for a
    cell that is not a string. A name that holds keys of both campuses
    goes to campus 1. *)
Theorem assign_campus_rule :
  (forall f : string,
      (Prepare.assign_campus (CStr f) = "1"
       <-> Text.occurs_in "Business" f \/ Text.occurs_in "Medicine" f)
      /\ (Prepare.assign_campus (CStr f) = "2"
          <-> ~ (Text.occurs_in "Business" f \/ Text.occurs_in "Medicine" f)
              /\ Text.occurs_in "Law" f)
      /\ (Prepare.assign_campus (CStr f) = "Unknown"
          <-> ~ (Text.occurs_in "Business" f \/ Text.occurs_in "Medicine" f)
              /\ ~ Text.occurs_in "Law" f))
  /\ (forall n, Prepare.assign_campus (CInt n) = "Unknown")
  /\ Prepare.assign_campus CNaN = "Unknown".
Proof.
  split; [|done]. intros f. destruct (campus_keys_in f) as [H1 H2].
  unfold Prepare.assign_campus.
  destruct (existsb _ Prepare.campus_1_keys) eqn:E1;
    [|destruct (existsb _ Prepare.campus_2_keys) eqn:E2].
  - assert (Text.occurs_in "Business" f \/ Text.occurs_in "Medicine" f) as Ho
      by (by apply H1).
    split; [done|]. split; (split; [discriminate|by intros [? _]]).
  - assert (~ (Text.occurs_in "Business" f \/ Text.occurs_in "Medicine" f)) as Hn
      by (intros Ho; apply H1 in Ho; discriminate).
    assert (Text.occurs_in "Law" f) as Hl by (by apply H2).
    split; [split; [discriminate|done]|]. split; [done|].
    split; [discriminate|by intros [_ ?]].
  - assert (~ (Text.occurs_in "Business" f \/ Text.occurs_in "Medicine" f)) as Hn
      by (intros Ho; apply H1 in Ho; discriminate).
    assert (~ Text.occurs_in "Law" f) as Hl
      by (intros Ho; apply H2 in Ho; discriminate).
    split; [split; [discriminate|done]|].
    split; [split; [discriminate|by intros [_ ?]]|done].
Qed.

(** X5. The short school name and the campus of one faculty cell agree:
    the campus is '1' exactly when the short name is 'Business' or
    'Medicine', '2' exactly when it is 'Law', and 'Unknown' exactly when
    it is 'Unknown'. A short name other than 'Unknown' occurs in the
    faculty name, and 'Business' wins over 'Medicine' when both occur. *)
Theorem shorten_school_agrees :
  (forall c : cell,
      (Prepare.assign_campus c = "1"
       <-> Prepare.shorten_school c = "Business"
           \/ Prepare.shorten_school c = "Medicine")
      /\ (Prepare.assign_campus c = "2" <-> Prepare.shorten_school c = "Law")
      /\ (Prepare.assign_campus c = "Unknown"
          <-> Prepare.shorten_school c = "Unknown"))
  /\ (forall f : string,
         Prepare.shorten_school (CStr f) <> "Unknown" ->
         Text.occurs_in (Prepare.shorten_school (CStr f)) f)
  /\ (forall f : string,
         Text.occurs_in "Business" f ->
         Prepare.shorten_school (CStr f) = "Business").
Proof.
  split; [|split].
  - intros [f|n|]; unfold Prepare.assign_campus, Prepare.shorten_school,
      Prepare.campus_1_keys, Prepare.campus_2_keys; simpl;
      [destruct (Text.contains "Business" f), (Text.contains "Medicine" f),
         (Text.contains "Law" f); simpl| |];
      (split; [|split]); split;
      first [done | discriminate | by left | by right
            | intros [H|H]; discriminate].
  - intros f. unfold Prepare.shorten_school,
      Prepare.campus_1_keys, Prepare.campus_2_keys. simpl.
    destruct (Text.contains "Business" f) eqn:E1;
      [intros _; by apply contains_spec|].
    destruct (Text.contains "Medicine" f) eqn:E2;
      [intros _; by apply contains_spec|].
    destruct (Text.contains "Law" f) eqn:E3;
      [intros _; by apply contains_spec|done].
  - intros f H%contains_spec. unfold Prepare.shorten_school,
      Prepare.campus_1_keys. simpl. by rewrite H.
Qed.

(** X6. The keys are matched with their capitals: a faculty name without
    upper-case letters, such as any lower-cased name, gets the campus
    'Unknown' and the short name 'Unknown', whatever it says. *)
Theorem lowercase_faculty_unknown (f : string) :
  Prepare.assign_campus (CStr (Text.lower f)) = "Unknown"
  /\ Prepare.shorten_school (CStr (Text.lower f)) = "Unknown".
Proof.
  pose proof (lower_no_upper f) as Hl.
  unfold Prepare.assign_campus, Prepare.shorten_school,
    Prepare.campus_1_keys, Prepare.campus_2_keys. simpl.
  rewrite !contains_upper_head by done. done.
Qed.

(** ** Ages *)
Section AgeFacts.
Import Text.

Lemma pretty_N_char_digit (x : N) :
  (x < 10)%N ->
  is_digit (pretty_N_char x) = true /\ digit_value (pretty_N_char x) = Z.of_N x.
Proof.
  intros Hx.
  assert (x = 0 \/ x = 1 \/ x = 2 \/ x = 3 \/ x = 4 \/ x = 5 \/ x = 6
          \/ x = 7 \/ x = 8 \/ x = 9)%N as H by lia.
  repeat (destruct H as [->|H]; [by split|]). by subst.
Qed.

Lemma pretty_N_go_digits (x : N) (s : string) :
  all_chars is_digit s = true -> all_chars is_digit (pretty_N_go x s) = true.
Proof.
  revert s. induction (N.lt_wf_0 x) as [x _ IH]; intros s Hs.
  destruct (decide (x = 0)%N) as [->|Hx]; [by rewrite pretty_N_go_0|].
  rewrite pretty_N_go_step by lia. apply IH.
  - apply N.div_lt; lia.
  - simpl. rewrite Hs.
    destruct (pretty_N_char_digit (x `mod` 10)%N) as [-> _]; [|done].
    apply N.mod_lt. lia.
Qed.

Lemma pretty_N_go_decimal (x : N) (s : string) :
  decimal_acc 0 (pretty_N_go x s) = decimal_acc (Z.of_N x) s.
Proof.
  revert s. induction (N.lt_wf_0 x) as [x _ IH]; intros s.
  destruct (decide (x = 0)%N) as [->|Hx]; [by rewrite pretty_N_go_0|].
  rewrite pretty_N_go_step by lia. rewrite IH by (apply N.div_lt; lia).
  simpl. f_equal.
  destruct (pretty_N_char_digit (x `mod` 10)%N) as [_ ->];
    [apply N.mod_lt; lia|].
  pose proof (N.div_mod x 10). lia.
Qed.

Lemma pretty_N_go_nonempty (x : N) (s : string) :
  s <> EmptyString -> pretty_N_go x s <> EmptyString.
Proof.
  revert s. induction (N.lt_wf_0 x) as [x _ IH]; intros s Hs.
  destruct (decide (x = 0)%N) as [->|Hx]; [by rewrite pretty_N_go_0|].
  rewrite pretty_N_go_step by lia. apply IH; [apply N.div_lt; lia|done].
Qed.

Lemma string_app_nil_r (s : string) : s +:+ EmptyString = s.
Proof.
  induction s as [|c s IH]; [done|].
  change (String c (s +:+ EmptyString) = String c s). by rewrite IH.
Qed.

Lemma pretty_positive_digits (p : positive) :
  all_chars is_digit (pretty p) = true
  /\ pretty p <> EmptyString
  /\ decimal (pretty p) = Z.pos p.
Proof.
  unfold pretty, pretty_positive, pretty, pretty_N.
  rewrite decide_False by done.
  rewrite (pretty_N_go_step (N.pos p)) by lia.
  split; [|split].
  - apply pretty_N_go_digits. simpl.
    destruct (pretty_N_char_digit (N.pos p `mod` 10)%N) as [-> _]; [|done].
    apply N.mod_lt. lia.
  - by apply pretty_N_go_nonempty.
  - rewrite <- pretty_N_go_step by lia. unfold decimal.
    by rewrite pretty_N_go_decimal.
Qed.

Lemma search_digits_tail (pre run : string) :
  all_chars non_digit pre = true ->
  all_chars is_digit run = true -> run <> EmptyString ->
  search_digits (pre +:+ run) = Some run.
Proof.
  intros Hpre Hrun Hne.
  pose proof (search_digits_run pre run EmptyString Hpre Hrun Hne eq_refl) as H.
  by rewrite string_app_nil_r in H.
Qed.

Lemma take_digits_digits (s : string) :
  all_chars is_digit (take_digits s) = true.
Proof.
  induction s as [|c s IH]; simpl; [done|].
  destruct (is_digit c) eqn:E; simpl; [|done]. by rewrite E.
Qed.

Lemma decimal_acc_nonneg (acc : Z) (s : string) :
  0 <= acc -> all_chars is_digit s = true -> 0 <= decimal_acc acc s.
Proof.
  revert acc. induction s as [|c s IH]; intros acc Hacc; simpl; [done|].
  intros [Hc Hs]%andb_true_iff. apply IH; [|done].
  unfold is_digit in Hc. unfold digit_value.
  apply andb_true_iff in Hc as [Hc%Nat.leb_le _]. lia.
Qed.

Lemma is_digit_is_ascii (c : ascii) : is_digit c = true -> is_ascii_char c = true.
Proof. destruct c as [[] [] [] [] [] [] [] []]; done. Qed.

Lemma digits_is_ascii (s : string) :
  all_chars is_digit s = true -> is_ascii s = true.
Proof.
  unfold is_ascii. induction s as [|c s IH]; simpl; [done|].
  intros [Hc Hs]%andb_true_iff. by rewrite is_digit_is_ascii, IH.
Qed.

Lemma age_of_string_run (pre run post : string) :
  is_ascii pre = true -> is_ascii post = true ->
  all_chars non_digit pre = true ->
  all_chars is_digit run = true -> run <> EmptyString ->
  ends_run post = true ->
  decimal run <= Preprocess.exact_limit ->
  Preprocess.age_of_string (pre +:+ run +:+ post) = Some (Some (decimal run)).
Proof.
  intros Hpre Hpost Hnd Hrun Hne Hend Hlim. unfold Preprocess.age_of_string.
  rewrite !is_ascii_app, Hpre, Hpost, digits_is_ascii by done. simpl.
  rewrite search_digits_run by done. by rewrite bool_decide_eq_true_2.
Qed.

End AgeFacts.

(** X7. An age cell that holds an integer of magnitude up to 2^53 comes
    out as its absolute value, whether the column was read as integers
    (the cell prints as the integer) or, beside an empty cell, as float64
    (it prints with a trailing '.0'): the sign of a negative number is
    not a digit and is dropped, and the run ends at the point. *)
Theorem clean_age_of_integer (float_column : bool) (n : Z) :
  Z.abs n <= Preprocess.exact_limit ->
  Preprocess.clean_age float_column (CInt n) = Some (Some (Z.abs n)).
Proof.
  intros Hn. unfold Preprocess.clean_age, Preprocess.astype_str.
  rewrite bool_decide_eq_true_2 by done.
  change (Preprocess.age_of_string
            (if float_column then pretty n +:+ ".0" else pretty n)
          = Some (Some (Z.abs n))).
  destruct n as [|p|p]; [by destruct float_column| |];
    destruct (pretty_positive_digits p) as (Hd & Hne & Hv); simpl in Hn;
    destruct float_column.
  - change (pretty (Z.pos p) +:+ ".0") with (EmptyString +:+ pretty p +:+ ".0").
    rewrite age_of_string_run; try done; by rewrite Hv.
  - change (pretty (Z.pos p)) with (pretty p).
    rewrite <- (string_app_nil_r (pretty p)).
    change (pretty p +:+ EmptyString)
      with (EmptyString +:+ pretty p +:+ EmptyString).
    rewrite age_of_string_run; try done; by rewrite Hv.
  - change (pretty (Z.neg p) +:+ ".0") with ("-" +:+ pretty p +:+ ".0").
    rewrite age_of_string_run; try done; by rewrite Hv.
  - change (pretty (Z.neg p)) with ("-" +:+ pretty p).
    rewrite <- (string_app_nil_r (pretty p)).
    rewrite age_of_string_run; try done; by rewrite Hv.
Qed.

Lemma clean_age_of_integer_witness :
  Z.abs (-41) <= Preprocess.exact_limit
  /\ Preprocess.clean_age true (CInt (-41)) = Some (Some (Z.abs (-41))).
Proof.
  assert (Z.abs (-41) <= Preprocess.exact_limit) as H
    by (vm_compute; discriminate).
  split; [exact H|]. exact (clean_age_of_integer true (-41) H).
Defined.

(** X8. A cleaned age is never negative, whatever the cell held. *)
Theorem clean_age_nonnegative (float_column : bool) (raw : cell) (a : Z) :
  Preprocess.clean_age float_column raw = Some (Some a) -> 0 <= a.
Proof.
  unfold Preprocess.clean_age.
  destruct (Preprocess.astype_str float_column raw) as [s|]; simpl; [|done].
  unfold Preprocess.age_of_string, Text.search_digits.
  destruct (Text.is_ascii s); [|done].
  pose proof (take_digits_digits (Text.drop_non_digits s)) as Hd.
  destruct (Text.take_digits _) as [|c r] eqn:E; [done|].
  case_bool_decide; [|done]. intros [= <-]. by apply decimal_acc_nonneg.
Qed.

Lemma clean_age_nonnegative_witness :
  Preprocess.clean_age false (CStr "about -17") = Some (Some 17) /\ 0 <= 17.
Proof.
  assert (Preprocess.clean_age false (CStr "about -17") = Some (Some 17)) as H
    by (vm_compute; reflexivity).
  split; [exact H|].
  exact (clean_age_nonnegative false (CStr "about -17") 17 H).
Defined.

(** ** More on the matching loop *)
Section MoreLoopFacts.
Import Engine.
Context (max : Z).
Implicit Types (s : student) (m : mentor) (ms : list mentor)
  (ss : list student) (acc : gmap nat Z * list match_record).

Lemma StronglySorted_sublist {A} (R : relation A) (l1 l2 : list A) :
  l1 `sublist_of` l2 -> StronglySorted R l2 -> StronglySorted R l1.
Proof.
  induction 1 as [|x l1 l2 Hsub IH|x l1 l2 Hsub IH]; [done| |].
  - intros [Hx Hl]%StronglySorted_cons. constructor; [by apply IH|].
    rewrite Forall_forall in Hx |- *. intros y Hy. apply Hx.
    by eapply elem_of_sublist.
  - intros [_ Hl]%StronglySorted_cons. by apply IH.
Qed.

(** The records of the loop are made, in order, from students taken in
    order from the sheet, each with a mentor of the mentor sheet. *)
Lemma match_loop_pairs ss ms acc :
  exists pairs : list (student * mentor),
    (match_loop max ss ms acc).2
    = acc.2 ++ ((fun p => make_match p.1 p.2 (campus_score p.1 p.2)) <$> pairs)
    /\ (fst <$> pairs) `sublist_of` ss
    /\ Forall (fun p => p.2 ∈ ms) pairs.
Proof.
  revert acc. induction ss as [|s ss IH]; intros acc.
  - exists []. simpl. by rewrite app_nil_r.
  - rewrite match_loop_cons.
    destruct (IH (assign max ms acc s)) as (pairs & Hrec & Hsub & Hall).
    destruct (assign_cases max ms acc s)
      as [(m & _ & (l1 & l2 & -> & _) & Ha & _)|(_ & _ & Ha & _)].
    + exists ((s, m) :: pairs). rewrite Hrec, Ha, <- app_assoc. simpl.
      split; [done|]. split; [by apply sublist_skip|].
      constructor; [|done]. simpl. apply elem_of_app. right.
      apply list_elem_of_here.
    + exists pairs. rewrite Hrec, Ha. split; [done|].
      split; [by apply sublist_cons|done].
Qed.

(** A student who gets no record leaves every mentor that passes the
    student's gender filter at a count of at least the capacity. *)
Lemma match_loop_unmatched ss ms acc s m (new : list match_record) :
  (match_loop max ss ms acc).2 = acc.2 ++ new ->
  s ∈ ss -> s_index s ∉ Student_Index <$> new ->
  m ∈ ms -> gender_miss (gender_preference s) (m_gender m) = false ->
  max <= ledger_get (match_loop max ss ms acc).1 (m_index m).
Proof.
  revert acc new. induction ss as [|s0 ss IH]; intros acc new Hnew Hs Hnot Hm Hg;
    [by apply elem_of_nil in Hs|].
  rewrite match_loop_cons in Hnew |- *.
  destruct (match_loop_spec max ss ms (assign max ms acc s0))
    as (new' & Hnew' & Hled & _).
  assert (forall k, ledger_get (assign max ms acc s0).1 k
                    <= ledger_get (match_loop max ss ms (assign max ms acc s0)).1 k)
    as Hmono by (intros k; rewrite Hled; lia).
  destruct (assign_cases max ms acc s0)
    as [(m0 & _ & _ & Ha & _)|(_ & Hnone & Ha & Hsame)].
  - rewrite Hnew', Ha, <- app_assoc in Hnew. apply app_inv_head in Hnew.
    subst new. change ([?x] ++ ?l) with (x :: l) in Hnot.
    rewrite fmap_cons, not_elem_of_cons in Hnot.
    destruct Hnot as [Hne Hnot]. simpl in Hne.
    apply elem_of_cons in Hs as [->|Hs]; [done|].
    by eapply IH.
  - rewrite Hnew', Ha in Hnew. apply app_inv_head in Hnew. subst new'.
    apply elem_of_cons in Hs as [->|Hs]; [|by eapply IH].
    etrans; [|apply Hmono]. rewrite Hsame.
    destruct (decide (ledger_get acc.1 (m_index m) < max)) as [Hlt|]; [|lia].
    by destruct (Hnone m Hm).
Qed.

Lemma matches_of_filter_le (k : nat) (P : match_record -> Prop)
    `{!forall r, Decision (P r)} (l : list match_record) :
  (length (matches_of k (filter P l)) <= length (matches_of k l))%nat.
Proof.
  unfold matches_of. induction l as [|r l IH]; [done|].
  rewrite (filter_cons P). destruct (decide (P r)); rewrite !filter_cons;
    destruct (decide (Mentor_Index r = k)); simpl; lia.
Qed.

(** Records that all point at labels of [ks], at most [c] per label, are
    at most [c] times the length of [ks] in number. *)
Lemma count_by_label (c : Z) (ks : list nat) (l : list match_record) :
  0 <= c ->
  (forall r, r ∈ l -> Mentor_Index r ∈ ks) ->
  (forall k, Z.of_nat (length (matches_of k l)) <= c) ->
  Z.of_nat (length l) <= c * Z.of_nat (length ks).
Proof.
  intros Hc. revert l. induction ks as [|k ks IH]; intros l Hin Hcap.
  - destruct l as [|r l]; [simpl; lia|].
    specialize (Hin r (list_elem_of_here _ _)). by apply elem_of_nil in Hin.
  - pose proof (filter_app_complement (fun r => Mentor_Index r = k) l) as Hp.
    apply Permutation_length in Hp. rewrite length_app in Hp.
    specialize (Hcap k) as Hk. unfold matches_of in Hk.
    assert (Z.of_nat (length (filter (fun r => ~ Mentor_Index r = k) l))
            <= c * Z.of_nat (length ks)) as Hrest.
    { apply IH.
      - intros r [Hne Hr]%list_elem_of_filter.
        specialize (Hin r Hr). apply elem_of_cons in Hin as [|]; done.
      - intros k'. etrans; [|apply (Hcap k')].
        apply inj_le, matches_of_filter_le. }
    simpl length. lia.
Qed.

End MoreLoopFacts.

(** ** The engine as a whole *)

(** X9. When the sort has ordered both sheets and the capacity is at
    least 0, there are at most as many matches as students, and at most
    the capacity times the number of mentors. *)
Theorem match_count_bounds (argsort : Frame.sorter)
    (students : list Engine.student) (mentors : list Engine.mentor) (max : Z) :
  Frame.sorted_by argsort Engine.s_age students ->
  Frame.sorted_by argsort Engine.m_age mentors ->
  0 <= max ->
  (length (Engine.match_by_age_and_rules argsort students mentors max)
   <= length students)%nat
  /\ Z.of_nat (length (Engine.match_by_age_and_rules argsort students mentors max))
     <= max * Z.of_nat (length mentors).
Proof.
  intros Hss Hsm Hmax. unfold Engine.match_by_age_and_rules. split.
  - unfold Engine.run.
    destruct (match_loop_pairs max
                (Frame.sort_values argsort Engine.s_age students)
                (Frame.sort_values argsort Engine.m_age mentors) (∅, []))
      as (pairs & -> & Hsub & _).
    simpl. rewrite length_fmap, <- (length_fmap fst).
    etrans; [by apply sublist_length|].
    by rewrite sort_values_Permutation.
  - destruct (run_spec argsort students mentors max) as (Hled & Hall & _ & Hcap).
    assert (length mentors
            = length (Engine.m_index
                        <$> Frame.sort_values argsort Engine.m_age mentors))
      as -> by (rewrite length_fmap; symmetry; apply Permutation_length;
                by apply sort_values_Permutation).
    apply count_by_label; [done| |].
    + rewrite Forall_forall in Hall. intros r Hr.
      destruct (Hall r Hr) as (s & m & _ & Hm & -> & _). simpl.
      by apply list_elem_of_fmap_2.
    + intros k. rewrite <- Hled. by apply Hcap.
Qed.

Lemma match_count_bounds_witness :
  Frame.sorted_by Frame.insertion_sort Engine.s_age Examples.students
  /\ Frame.sorted_by Frame.insertion_sort Engine.m_age Examples.mentors
  /\ 0 <= 1
  /\ Z.of_nat (length (Engine.match_by_age_and_rules Frame.insertion_sort
                         Examples.students Examples.mentors 1))
     <= 1 * Z.of_nat (length Examples.mentors).
Proof.
  assert (Frame.sorted_by Frame.insertion_sort Engine.s_age Examples.students)
    as Hss by (split; by_evaluation).
  assert (Frame.sorted_by Frame.insertion_sort Engine.m_age Examples.mentors)
    as Hsm by (split; by_evaluation).
  assert (0 <= 1) as H by lia.
  split; [exact Hss|]. split; [exact Hsm|]. split; [exact H|].
  exact (proj2 (match_count_bounds Frame.insertion_sort Examples.students
                  Examples.mentors 1 Hss Hsm H)).
Defined.

(** X10. The records of the result stand in the order in which the
    students were processed: their student labels are a subsequence of
    the labels of the sorted student sheet, so the student ages of the
    records go down, records of students of unknown age last. *)
Theorem matches_in_priority_order (argsort : Frame.sorter)
    (students : list Engine.student) (mentors : list Engine.mentor) (max : Z) :
  Frame.sorted_by argsort Engine.s_age students ->
  (Engine.Student_Index
     <$> Engine.match_by_age_and_rules argsort students mentors max)
    `sublist_of`
    (Engine.s_index <$> Frame.sort_values argsort Engine.s_age students)
  /\ StronglySorted Frame.age_ge
       (Engine.Student_Age
          <$> Engine.match_by_age_and_rules argsort students mentors max).
Proof.
  intros Hss. unfold Engine.match_by_age_and_rules, Engine.run.
  destruct (match_loop_pairs max
              (Frame.sort_values argsort Engine.s_age students)
              (Frame.sort_values argsort Engine.m_age mentors) (∅, []))
    as (pairs & -> & Hsub & _).
  simpl.
  set (mk := fun p : Engine.student * Engine.mentor =>
               Engine.make_match p.1 p.2 (Engine.campus_score p.1 p.2)).
  assert (Engine.Student_Index <$> (mk <$> pairs)
          = Engine.s_index <$> (fst <$> pairs)) as ->
    by (by rewrite <- !list_fmap_compose).
  assert (Engine.Student_Age <$> (mk <$> pairs)
          = Engine.s_age <$> (fst <$> pairs)) as ->
    by (by rewrite <- !list_fmap_compose).
  split.
  - by apply fmap_sublist.
  - apply (StronglySorted_fmap _ (Frame.by_age_desc Engine.s_age)); [done|].
    eapply StronglySorted_sublist; [exact Hsub|].
    by apply sort_values_sorted.
Qed.

Lemma matches_in_priority_order_witness :
  Frame.sorted_by Frame.insertion_sort Engine.s_age Examples.students
  /\ StronglySorted Frame.age_ge
       (Engine.Student_Age
          <$> Engine.match_by_age_and_rules Frame.insertion_sort
                Examples.students Examples.mentors 1).
Proof.
  assert (Frame.sorted_by Frame.insertion_sort Engine.s_age Examples.students)
    as Hss by (split; by_evaluation).
  split; [exact Hss|].
  exact (proj2 (matches_in_priority_order Frame.insertion_sort Examples.students
                  Examples.mentors 1 Hss)).
Defined.

(** X11. No student is left unmatched while a mentor who passes that
    student's gender filter has room: with a capacity of at least 0, for
    every unmatched student, each mentor compatible with the student's
    preference ends the run with exactly the capacity in records. *)
Theorem unmatched_means_full (argsort : Frame.sorter)
    (students : list Engine.student) (mentors : list Engine.mentor) (max : Z) :
  Frame.sorted_by argsort Engine.s_age students ->
  Frame.sorted_by argsort Engine.m_age mentors ->
  0 <= max ->
  forall s m,
    s ∈ Engine.unmatched_students students
          (Engine.match_by_age_and_rules argsort students mentors max) ->
    m ∈ mentors ->
    Engine.gender_miss (Engine.gender_preference s) (Engine.m_gender m) = false ->
    Z.of_nat (length (Engine.matches_of (Engine.m_index m)
      (Engine.match_by_age_and_rules argsort students mentors max))) = max.
Proof.
  intros Hss Hsm Hmax s m Hs Hm Hg.
  rewrite unmatched_students_filter in Hs.
  apply list_elem_of_filter in Hs as [Hnot Hs].
  destruct (run_spec argsort students mentors max) as (Hled & _ & _ & Hcap).
  unfold Engine.match_by_age_and_rules in *. rewrite <- Hled.
  apply Z.le_antisymm; [by apply Hcap|].
  unfold Engine.run in *.
  eapply (match_loop_unmatched max _ _ (∅, []) s m); [done| | |by apply
    elem_of_sort_values|done].
  - by apply elem_of_sort_values.
  - done.
Qed.

Lemma unmatched_means_full_witness :
  Frame.sorted_by Frame.insertion_sort Engine.s_age Examples.students
  /\ Frame.sorted_by Frame.insertion_sort Engine.m_age Examples.mentors
  /\ 0 <= 1
  /\ forall s m,
      s ∈ Engine.unmatched_students Examples.students
            (Engine.match_by_age_and_rules Frame.insertion_sort
               Examples.students Examples.mentors 1) ->
      m ∈ Examples.mentors ->
      Engine.gender_miss (Engine.gender_preference s) (Engine.m_gender m)
      = false ->
      Z.of_nat (length (Engine.matches_of (Engine.m_index m)
        (Engine.match_by_age_and_rules Frame.insertion_sort
           Examples.students Examples.mentors 1))) = 1.
Proof.
  assert (Frame.sorted_by Frame.insertion_sort Engine.s_age Examples.students)
    as Hss by (split; by_evaluation).
  assert (Frame.sorted_by Frame.insertion_sort Engine.m_age Examples.mentors)
    as Hsm by (split; by_evaluation).
  assert (0 <= 1) as H by lia.
  split; [exact Hss|]. split; [exact Hsm|]. split; [exact H|].
  exact (unmatched_means_full Frame.insertion_sort Examples.students
           Examples.mentors 1 Hss Hsm H).
Defined.

(** X12. A student gets a mentor of another campus only when no eligible
    mentor shares the student's campus: if some mentor that passes both
    hard filters scores 1, the record appended for the student is made
    with an eligible mentor of the student's own campus and says 'Yes'. *)
Theorem same_campus_preferred (max : Z) (s : Engine.student)
    (ms : list Engine.mentor)
    (acc : gmap nat Z * list Engine.match_record) (m' : Engine.mentor) :
  m' ∈ ms -> Engine.eligible max acc.1 s m' -> Engine.campus_score s m' = 1 ->
  exists m,
    m ∈ ms /\ Engine.eligible max acc.1 s m
    /\ Engine.m_campus m = Engine.s_campus s
    /\ Engine.s_campus s <> "Unknown"
    /\ (Engine.assign max ms acc s).2 = acc.2 ++ [Engine.make_match s m 1]
    /\ Engine.Same_Campus_Match (Engine.make_match s m 1) = "Yes".
Proof.
  intros Hin Hel Hsc.
  destruct (assign_cases max ms acc s)
    as [(m & _ & (l1 & l2 & -> & Helm & H1 & H2) & Hrec & _)|(_ & Hnone & _)];
    [|by destruct (Hnone m' Hin)].
  pose proof (campus_score_range s m) as Hr.
  assert (Engine.campus_score s m = 1) as Hm.
  { apply elem_of_app in Hin as [Hin|Hin]; [specialize (H1 m' Hin Hel); lia|].
    apply elem_of_cons in Hin as [->|Hin]; [done|].
    specialize (H2 m' Hin Hel). lia. }
  exists m. rewrite Hm in Hrec. apply campus_score_one in Hm as [Hc Hu].
  split; [apply elem_of_app; right; apply list_elem_of_here|].
  split; [exact Helm|]. split; [exact Hc|]. split; [exact Hu|].
  split; [exact Hrec|reflexivity].
Qed.

Lemma same_campus_preferred_witness :
  Examples.mk_mentor 2 (Some 40) "Dr." "1" ∈ Examples.mentors
  /\ Engine.eligible 1 ∅ (Examples.mk_student 0 (Some 30) None "1")
       (Examples.mk_mentor 2 (Some 40) "Dr." "1")
  /\ Engine.campus_score (Examples.mk_student 0 (Some 30) None "1")
       (Examples.mk_mentor 2 (Some 40) "Dr." "1") = 1
  /\ exists m,
      m ∈ Examples.mentors
      /\ Engine.eligible 1 ∅ (Examples.mk_student 0 (Some 30) None "1") m
      /\ Engine.m_campus m
         = Engine.s_campus (Examples.mk_student 0 (Some 30) None "1")
      /\ Engine.s_campus (Examples.mk_student 0 (Some 30) None "1") <> "Unknown"
      /\ (Engine.assign 1 Examples.mentors (∅, [])
            (Examples.mk_student 0 (Some 30) None "1")).2
         = [] ++ [Engine.make_match
                    (Examples.mk_student 0 (Some 30) None "1") m 1]
      /\ Engine.Same_Campus_Match
           (Engine.make_match (Examples.mk_student 0 (Some 30) None "1") m 1)
         = "Yes".
Proof.
  assert (Examples.mk_mentor 2 (Some 40) "Dr." "1" ∈ Examples.mentors) as Hin
    by (do 2 apply list_elem_of_further; apply list_elem_of_here).
  assert (Engine.eligible 1 ∅ (Examples.mk_student 0 (Some 30) None "1")
            (Examples.mk_mentor 2 (Some 40) "Dr." "1")) as Hel.
  { split; [reflexivity|]. rewrite ledger_get_empty. lia. }
  assert (Engine.campus_score (Examples.mk_student 0 (Some 30) None "1")
            (Examples.mk_mentor 2 (Some 40) "Dr." "1") = 1) as Hsc
    by reflexivity.
  split; [exact Hin|]. split; [exact Hel|]. split; [exact Hsc|].
  exact (same_campus_preferred 1 (Examples.mk_student 0 (Some 30) None "1")
           Examples.mentors (∅, []) _ Hin Hel Hsc).
Defined.

(** X13. Among the eligible mentors the choice goes by score first and by
    age second: when the sort has ordered the mentor sheet, the mentor
    the scan selects scores at least as much as every eligible mentor of
    the sheet, and is at least as old as every eligible mentor with the
    same score (a mentor of unknown age counting as youngest). *)
Theorem oldest_among_equals (argsort : Frame.sorter)
    (mentors : list Engine.mentor) (max : Z) (s : Engine.student)
    (count : gmap nat Z) (m : Engine.mentor) :
  Frame.sorted_by argsort Engine.m_age mentors ->
  Engine.best_mentor
    (Engine.scan max s (Frame.sort_values argsort Engine.m_age mentors) count)
  = Some m ->
  m ∈ mentors /\ Engine.eligible max count s m
  /\ forall m',
      m' ∈ mentors -> Engine.eligible max count s m' ->
      Engine.campus_score s m' <= Engine.campus_score s m
      /\ (Engine.campus_score s m' = Engine.campus_score s m ->
          Frame.age_ge (Engine.m_age m) (Engine.m_age m')).
Proof.
  intros Hsm Hb.
  destruct (scan_spec max s (Frame.sort_values argsort Engine.m_age mentors)
              count) as [_ Hsp].
  rewrite Hb in Hsp. destruct Hsp as [(l1 & l2 & Heq & Hel & H1 & H2) _].
  pose proof (sort_values_sorted argsort Engine.m_age mentors Hsm) as Hsorted.
  rewrite Heq in Hsorted.
  apply StronglySorted_app in Hsorted as (_ & _ & [Hm2 _]%StronglySorted_cons).
  rewrite Forall_forall in Hm2.
  split; [|split; [done|]].
  - apply (elem_of_sort_values argsort Engine.m_age mentors m Hsm).
    rewrite Heq. apply elem_of_app. right. apply list_elem_of_here.
  - intros m' Hin' Hel'.
    apply (elem_of_sort_values argsort Engine.m_age mentors m' Hsm) in Hin'.
    rewrite Heq in Hin'. apply elem_of_app in Hin' as [Hin'|Hin'].
    + specialize (H1 m' Hin' Hel'). split; lia.
    + apply elem_of_cons in Hin' as [->|Hin'].
      * split; [lia|]. intros _. unfold Frame.age_ge.
        destruct (Engine.m_age m); [lia|done].
      * split; [by apply H2|]. intros _. by apply Hm2.
Qed.

Lemma oldest_among_equals_witness :
  Frame.sorted_by Frame.insertion_sort Engine.m_age Examples.mentors
  /\ Engine.best_mentor
       (Engine.scan 1 (Examples.mk_student 3 (Some 50) None "1")
          (Frame.sort_values Frame.insertion_sort Engine.m_age Examples.mentors) ∅)
     = Some (Examples.mk_mentor 0 (Some 40) "Mr." "1")
  /\ Engine.eligible 1 ∅ (Examples.mk_student 3 (Some 50) None "1")
       (Examples.mk_mentor 0 (Some 40) "Mr." "1").
Proof.
  assert (Frame.sorted_by Frame.insertion_sort Engine.m_age Examples.mentors)
    as Hsm by (split; by_evaluation).
  assert (Engine.best_mentor
            (Engine.scan 1 (Examples.mk_student 3 (Some 50) None "1")
               (Frame.sort_values Frame.insertion_sort Engine.m_age
                  Examples.mentors) ∅)
          = Some (Examples.mk_mentor 0 (Some 40) "Mr." "1")) as Hb
    by (vm_compute; reflexivity).
  split; [exact Hsm|]. split; [exact Hb|].
  exact (proj1 (proj2 (oldest_among_equals Frame.insertion_sort Examples.mentors 1
                         (Examples.mk_student 3 (Some 50) None "1") ∅ _
                         Hsm Hb))).
Defined.

(** X14. With an empty mentor sheet there is no match and every student
    is reported unmatched, in input order; with an empty student sheet
    there is no match and nobody is reported. *)
Theorem empty_sheets (argsort : Frame.sorter) (max : Z) :
  (forall students,
      Frame.sorted_by argsort Engine.m_age [] ->
      Engine.match_by_age_and_rules argsort students [] max = []
      /\ Engine.unmatched_students students
           (Engine.match_by_age_and_rules argsort students [] max) = students)
  /\ (forall mentors,
         Frame.sorted_by argsort Engine.s_age [] ->
         Engine.match_by_age_and_rules argsort [] mentors max = []
         /\ Engine.unmatched_students []
              (Engine.match_by_age_and_rules argsort [] mentors max) = []).
Proof.
  split.
  - intros students Hsm.
    assert (Engine.match_by_age_and_rules argsort students [] max = []) as H.
    { destruct (run_spec argsort students [] max) as (_ & Hall & _).
      unfold Engine.match_by_age_and_rules.
      destruct (Engine.run argsort students [] max).2 as [|r l]; [done|].
      apply Forall_cons in Hall as [(s & m & _ & Hm & _) _].
      apply elem_of_sort_values in Hm; [|done]. by apply elem_of_nil in Hm. }
    by rewrite H.
  - intros mentors Hss.
    assert (Engine.match_by_age_and_rules argsort [] mentors max = []) as H.
    { destruct (run_spec argsort [] mentors max) as (_ & Hall & _).
      unfold Engine.match_by_age_and_rules.
      destruct (Engine.run argsort [] mentors max).2 as [|r l]; [done|].
      apply Forall_cons in Hall as [(s & m & Hs & _) _].
      apply elem_of_sort_values in Hs; [|done]. by apply elem_of_nil in Hs. }
    by rewrite H.
Qed.

Lemma empty_sheets_witness :
  Frame.sorted_by Frame.insertion_sort Engine.m_age []
  /\ Engine.match_by_age_and_rules Frame.insertion_sort Examples.students [] 11 = []
  /\ Engine.unmatched_students Examples.students
       (Engine.match_by_age_and_rules Frame.insertion_sort Examples.students [] 11)
     = Examples.students.
Proof.
  assert (Frame.sorted_by Frame.insertion_sort Engine.m_age []) as Hsm
    by (split; by_evaluation).
  split; [exact Hsm|].
  exact (proj1 (empty_sheets Frame.insertion_sort 11) Examples.students Hsm).
Defined.

(** ** The main run *)
Section MainFacts.
Import Engine Prepare.
Context (argsort : Frame.sorter).
Implicit Types (students_df : list raw_student) (mentors_df : list raw_mentor).

Lemma prepared_student_labels students_df :
  s_index <$> prepared_students students_df = seq 0 (length students_df).
Proof.
  unfold prepared_students.
  rewrite fmap_imap, (imap_ext _ (fun j _ => j)) by done.
  by rewrite (imap_seq_0 students_df (fun j => j)), list_fmap_id.
Qed.

Lemma main_Some students_df mentors_df matches unmatched :
  main argsort students_df mentors_df = Some (matches, unmatched) ->
  matches = match_by_age_and_rules argsort (prepared_students students_df)
              (prepared_mentors mentors_df) MENTOR_CAPACITY
  /\ unmatched = unmatched_students (prepared_students students_df) matches.
Proof.
  unfold main, preprocess_data.
  destruct (str_accessor_ok _ && covered _ && covered _); [|done].
  by intros [= <- <-].
Qed.

(** When the main run gives a result, the age cells of both sheets are
    inside the model. *)
Lemma main_covered students_df mentors_df matches unmatched :
  main argsort students_df mentors_df = Some (matches, unmatched) ->
  (forall rs, rs ∈ students_df ->
     Preprocess.clean_age (float_column (rs_age <$> students_df)) (rs_age rs)
     = Some (age_cell (float_column (rs_age <$> students_df)) (rs_age rs)))
  /\ (forall rm, rm ∈ mentors_df ->
       Preprocess.clean_age (float_column (rm_age <$> mentors_df)) (rm_age rm)
       = Some (age_cell (float_column (rm_age <$> mentors_df)) (rm_age rm))).
Proof.
  unfold main, preprocess_data.
  destruct (str_accessor_ok _ && covered _ && covered _) eqn:E; [|done].
  intros _. apply andb_true_iff in E as [[_ Hs]%andb_true_iff Hm].
  unfold covered in Hs, Hm. rewrite forallb_forall in Hs, Hm.
  split.
  - intros rs Hin.
    pose proof (Hs (rs_age rs)
                  (proj1 (list_elem_of_In _ _) (list_elem_of_fmap_2 rs_age _ _ Hin)))
      as H.
    apply bool_decide_eq_true in H as [a Ha]. unfold age_cell. by rewrite Ha.
  - intros rm Hin.
    pose proof (Hm (rm_age rm)
                  (proj1 (list_elem_of_In _ _) (list_elem_of_fmap_2 rm_age _ _ Hin)))
      as H.
    apply bool_decide_eq_true in H as [a Ha]. unfold age_cell. by rewrite Ha.
Qed.

(** A record of the main run is the record of the prepared rows found at
    its two labels, and those rows passed the gender filter. *)
Lemma main_origin students_df mentors_df matches unmatched r :
  main argsort students_df mentors_df = Some (matches, unmatched) ->
  Frame.sorted_by argsort s_age (prepared_students students_df) ->
  Frame.sorted_by argsort m_age (prepared_mentors mentors_df) ->
  r ∈ matches ->
  exists rs rm,
    students_df !! Student_Index r = Some rs
    /\ mentors_df !! Mentor_Index r = Some rm
    /\ r = make_match
             (prepare_student (float_column (rs_age <$> students_df))
                (Student_Index r) rs)
             (prepare_mentor (float_column (rm_age <$> mentors_df))
                (Mentor_Index r) rm)
             (campus_score
                (prepare_student (float_column (rs_age <$> students_df))
                   (Student_Index r) rs)
                (prepare_mentor (float_column (rm_age <$> mentors_df))
                   (Mentor_Index r) rm))
    /\ gender_miss (clean_gender_preference (rs_gender_preference rs))
         (Preprocess.map_title_to_gender (rm_title rm)) = false.
Proof.
  intros [-> _]%main_Some Hss Hsm Hr.
  destruct (run_spec argsort (prepared_students students_df)
              (prepared_mentors mentors_df) MENTOR_CAPACITY)
    as (_ & Hall & _).
  rewrite Forall_forall in Hall.
  destruct (Hall r Hr) as (s & m & Hs & Hm & -> & Hg).
  apply elem_of_sort_values in Hs; [|done].
  apply elem_of_sort_values in Hm; [|done].
  apply elem_of_lookup_imap in Hs as (i & rs & -> & Hi).
  apply elem_of_lookup_imap in Hm as (j & rm & -> & Hj).
  exists rs, rm. simpl. done.
Qed.

Lemma map_title_to_gender_female (c : cell) :
  Preprocess.map_title_to_gender c = "Female" ->
  exists t, c = CStr t
            /\ Text.occurs_in "ms" (Text.strip (Text.lower t))
            /\ ~ Text.occurs_in "mr" (Text.strip (Text.lower t)).
Proof.
  destruct c as [t|n|]; [|done..]. unfold Preprocess.map_title_to_gender.
  destruct (Text.contains "mr" _) eqn:E1; [done|].
  destruct (Text.contains "ms" _) eqn:E2; [|done]. intros _. exists t.
  split; [done|]. split; [by apply contains_spec|by apply contains_false].
Qed.

Lemma map_title_to_gender_male (c : cell) :
  Preprocess.map_title_to_gender c = "Male" ->
  exists t, c = CStr t /\ Text.occurs_in "mr" (Text.strip (Text.lower t)).
Proof.
  destruct c as [t|n|]; [|done..]. unfold Preprocess.map_title_to_gender.
  destruct (Text.contains "mr" _) eqn:E1.
  - intros _. exists t. split; [done|]. by apply contains_spec.
  - destruct (Text.contains "ms" _ || _); done.
Qed.

(** The labels of the records and of the unmatched students split the
    labels of a sheet with unique labels. *)
Lemma labels_partition (students : list student) (mentors : list mentor)
    (max : Z) :
  Frame.sorted_by argsort s_age students -> NoDup (s_index <$> students) ->
  (Student_Index <$> match_by_age_and_rules argsort students mentors max)
  ++ (s_index <$> unmatched_students students
                    (match_by_age_and_rules argsort students mentors max))
  ≡ₚ s_index <$> students.
Proof.
  intros Hs Hd. set (matches := match_by_age_and_rules argsort students mentors max).
  rewrite unmatched_students_filter.
  assert (NoDup (Student_Index <$> matches)) as Hnd
    by (by apply matched_indices_NoDup).
  apply NoDup_Permutation; [|done|].
  - apply NoDup_app. split; [done|]. split.
    + intros i Hi (s & -> & [Hn _]%list_elem_of_filter)%list_elem_of_fmap. done.
    + eapply sublist_NoDup; [exact Hd|]. apply fmap_sublist, sublist_filter.
  - intros i. rewrite elem_of_app. split.
    + intros [Hi|(s & -> & [_ Hin]%list_elem_of_filter)%list_elem_of_fmap].
      * by eapply matched_indices_known.
      * by apply list_elem_of_fmap_2.
    + intros (s & -> & Hin)%list_elem_of_fmap.
      destruct (decide (s_index s ∈ Student_Index <$> matches)) as [Hm|Hm];
        [by left|right].
      apply list_elem_of_fmap_2. by apply list_elem_of_filter.
Qed.

End MainFacts.







(** ** No backtracking *)

(** X19. Records are only ever appended and counts only ever go up: the
    records made for the first students of the order are a prefix of the
    records made when more students follow, the students that follow add
    at most one record each, and no count of the ledger is lower after
    them than before. *)
Theorem no_backtracking (max : Z) (ms : list Engine.mentor)
    (ss1 ss2 : list Engine.student)
    (acc : gmap nat Z * list Engine.match_record) :
  exists new,
    (Engine.match_loop max (ss1 ++ ss2) ms acc).2
    = (Engine.match_loop max ss1 ms acc).2 ++ new
    /\ (length new <= length ss2)%nat
    /\ forall k,
        Engine.ledger_get (Engine.match_loop max ss1 ms acc).1 k
        <= Engine.ledger_get (Engine.match_loop max (ss1 ++ ss2) ms acc).1 k.
Proof.
  assert (Engine.match_loop max (ss1 ++ ss2) ms acc
          = Engine.match_loop max ss2 ms (Engine.match_loop max ss1 ms acc))
    as -> by (unfold Engine.match_loop; apply foldl_app).
  destruct (match_loop_spec max ss2 ms (Engine.match_loop max ss1 ms acc))
    as (new & Hnew & Hled & _ & Hsub & _).
  exists new. split; [done|]. split.
  - apply sublist_length in Hsub. by rewrite !length_fmap in Hsub.
  - intros k. rewrite Hled. lia.
Qed.
